(** * Hedera hardware-wallet application API: APDU encoding and chunked signing

    A shallow embedding of [packages/hw-app-hedera/src/Hedera.ts] and the
    properties of its three public operations: [getAddress],
    [signTransaction] and [getAppConfiguration].

    Conventions of the embedding:
    - a [Buffer] is a list of bytes, each byte a [Z] in [0, 256);
    - array indices, offsets and lengths are [nat];
    - a thrown exception is the [Throw] case of a result;
    - the transport is an arbitrary state machine [exchange]; awaiting a
      promise ([await p], [p.then(k)]) is sequential composition in a state
      and exception monad whose state holds the transport state and the
      trace of events seen on the transport. *)

From Stdlib Require Import ZArith String Ascii DecimalString Lia.
From Equations Require Import Equations.
From stdpp Require Import base list.

Local Open Scope Z_scope.

(** ** Constants of the module *)

Definition CHUNK_SIZE : nat := 250.
Definition CLA : Z := 0xe0.

Module INS.
Definition GET_VERSION : Z := 0x00.
Definition GET_ADDR : Z := 0x02.
Definition SIGN : Z := 0x04.
End INS.

Definition PAYLOAD_TYPE_INIT : Z := 0x00.
Definition PAYLOAD_TYPE_ADD : Z := 0x01.
Definition PAYLOAD_TYPE_LAST : Z := 0x02.

Definition SW_OK : Z := 0x9000.
Definition SW_CANCEL : Z := 0x6986.

(** ** Buffers, exceptions *)

Abbreviation Buffer := (list Z).

Definition is_byte (b : Z) : Prop := 0 <= b < 256.
Definition is_u32 (v : Z) : Prop := 0 <= v <= 4294967295.

(** The exceptions that can leave the module.  [RangeError] is what the
    Buffer write methods throw for a value or an offset out of range,
    [TypeError] what a method call on [undefined] throws, [PathError] what
    the path parser throws, and [TransportError] anything the transport
    rejects a send with. *)
Inductive Error : Type :=
| RangeError
| TypeError
| PathError
| UserRefusedAddress
| UserRefusedOnDevice
| TransportError (msg : string).

Inductive Result (A : Type) : Type :=
| Ok (a : A)
| Throw (e : Error).
Arguments Ok {A} a.
Arguments Throw {A} e.

Definition rbind {A B} (r : Result A) (k : A -> Result B) : Result B :=
  match r with
  | Ok a => k a
  | Throw e => Throw e
  end.

Notation "'try' x <- r 'in' k" := (rbind r (fun x => k))
  (at level 10, x name, r at level 100, k at level 200).

(** [Buffer.alloc(size)]: a zero-filled buffer. *)
Definition Buffer_alloc (size : nat) : Buffer := replicate size 0.

(** [buf.writeInt8(value, offset)]: a signed 8-bit write.  The value must lie
    in [-128, 127] and the offset inside the buffer, otherwise a RangeError is
    thrown; the byte stored is the two's complement of the value. *)
Definition writeInt8 (buf : Buffer) (value : Z) (offset : nat) : Result Buffer :=
  if (-128 <=? value) && (value <=? 127) && (offset <? length buf)%nat
  then Ok (<[offset := Z.land value 0xff]> buf)
  else Throw RangeError.

(** [buf.writeUInt32BE(value, offset)]: an unsigned 32-bit big-endian write.
    The value must lie in [0, 2^32 - 1] and the four bytes inside the
    buffer, otherwise a RangeError is thrown. *)
Definition writeUInt32BE (buf : Buffer) (value : Z) (offset : nat) : Result Buffer :=
  if (0 <=? value) && (value <=? 4294967295) && (offset + 4 <=? length buf)%nat
  then Ok (<[offset := Z.land (Z.shiftr value 24) 0xff]>
           (<[(offset + 1)%nat := Z.land (Z.shiftr value 16) 0xff]>
            (<[(offset + 2)%nat := Z.land (Z.shiftr value 8) 0xff]>
             (<[(offset + 3)%nat := Z.land value 0xff]> buf))))
  else Throw RangeError.

(** ** [serializePath] *)

(** [path.forEach((segment, index) => data.writeUInt32BE(segment, 1 + index * 4))],
    from position [index] on; [path] is the part of the array not yet visited. *)
Fixpoint serializePath_forEach (path : list Z) (index : nat) (data : Buffer)
  : Result Buffer :=
  match path with
  | [] => Ok data
  | segment :: rest =>
      try data' <- writeUInt32BE data segment (1 + index * 4) in
      serializePath_forEach rest (S index) data'
  end.

Definition serializePath (path : list Z) : Result Buffer :=
  let data := Buffer_alloc (1 + length path * 4) in
  try data <- writeInt8 data (Z.of_nat (length path)) 0 in
  serializePath_forEach path 0 data.

(** The big-endian image of one segment, and the reader of one 4-byte group
    ([buf.readUInt32BE]), used to state what [serializePath] writes. *)
Definition be32 (v : Z) : Buffer :=
  [Z.land (Z.shiftr v 24) 0xff; Z.land (Z.shiftr v 16) 0xff;
   Z.land (Z.shiftr v 8) 0xff; Z.land v 0xff].

Fixpoint decodeSegments (n : nat) (bytes : Buffer) : list Z :=
  match n, bytes with
  | S n', b0 :: b1 :: b2 :: b3 :: rest =>
      (b0 * 2 ^ 24 + b1 * 2 ^ 16 + b2 * 2 ^ 8 + b3) :: decodeSegments n' rest
  | _, _ => []
  end.

(** ** JavaScript values used by the response decoding *)

(** A JavaScript number as the decoding can produce it: an integer, or NaN
    (arithmetic on [undefined], which indexing past the end of a buffer
    yields). *)
Inductive jsnum : Type :=
| Num (z : Z)
| NaN.

(** [hi * 0x100 + lo] on two possibly undefined operands. *)
Definition mul256_add (hi lo : option Z) : jsnum :=
  match hi, lo with
  | Some h, Some l => Num (h * 0x100 + l)
  | _, _ => NaN
  end.

(** [n === c] for a constant [c]; NaN is equal to nothing. *)
Definition strict_eq (n : jsnum) (c : Z) : bool :=
  match n with
  | Num v => v =? c
  | NaN => false
  end.

(** The index arithmetic of [buf.slice]: a negative index counts from the
    end, and every index is clamped to [0, length]. *)
Definition clampIndex (len : nat) (i : Z) : nat :=
  if i <? 0 then Z.to_nat (Z.max (Z.of_nat len + i) 0)
  else Nat.min (Z.to_nat i) len.

(** [buf.slice(start, end)]. *)
Definition Buffer_slice (buf : Buffer) (start end_ : Z) : Buffer :=
  let s := clampIndex (length buf) start in
  let e := clampIndex (length buf) end_ in
  take (e - s) (drop s buf).

(** [buf.slice(start)]: up to the end of the buffer. *)
Definition Buffer_slice_from (buf : Buffer) (start : Z) : Buffer :=
  Buffer_slice buf start (Z.of_nat (length buf)).

(** [buf.toString("hex")]: two lowercase hexadecimal digits per byte. *)
Definition hexDigit (d : Z) : ascii :=
  if d <? 10 then ascii_of_N (Z.to_N (48 + d)) else ascii_of_N (Z.to_N (87 + d)).

Fixpoint toHex (buf : Buffer) : string :=
  match buf with
  | [] => EmptyString
  | b :: rest => String (hexDigit (Z.shiftr b 4)) (String (hexDigit (Z.land b 0xf)) (toHex rest))
  end.

(** The status decoding shared by [getAddress] and [signTransaction]:
    [errorCodeData = response.slice(-2)] and
    [returnCode = errorCodeData[0] * 0x100 + errorCodeData[1]]. *)
Definition returnCodeOf (response : Buffer) : jsnum :=
  let errorCodeData := Buffer_slice_from response (-2) in
  mul256_add (errorCodeData !! 0%nat) (errorCodeData !! 1%nat).

(** ["" + v] for a buffer element: its decimal digits, or ["undefined"]. *)
Definition js_toString (v : option Z) : string :=
  match v with
  | Some z => NilZero.string_of_int (Z.to_int z)
  | None => "undefined"%string
  end.

(** ** The message slicing loop of [signTransaction] *)

(** [for (let i = 0; i < buffer.length; i += CHUNK_SIZE) { ... }], entered
    with the loop variable at [i] and the chunks pushed so far. *)
Equations? sliceLoop (buffer : Buffer) (i : nat) (chunks : list Buffer)
  : list Buffer by wf (length buffer - i)%nat lt :=
  sliceLoop buffer i chunks with decide (i < length buffer)%nat => {
    | left _ :=
        let end_ := (i + CHUNK_SIZE)%nat in
        let end_ := if (length buffer <? i)%nat then length buffer else end_ in
        sliceLoop buffer (i + CHUNK_SIZE)
          (chunks ++ [Buffer_slice buffer (Z.of_nat i) (Z.of_nat end_)]);
    | right _ := chunks }.
Proof. unfold CHUNK_SIZE. lia. Qed.

(** ** The transport and the monad of asynchronous operations *)

(** The arguments of one [transport.send(cla, ins, p1, p2, data, statusList)].
    [data] and [statusList] are optional parameters of the transport, [None]
    when the call omits them. *)
Record SendArgs : Type := mkSend {
  cla : Z;
  ins : Z;
  p1 : Z;
  p2 : Z;
  data : option Buffer;
  statusList : option (list Z)
}.

(** How one exchange settles: the promise of [send] resolves with the raw
    response bytes, or the transport rejects it (a status outside the
    acceptable list, a frame it refuses, a lost device, ...). *)
Inductive Reply : Type :=
| Response (bytes : Buffer)
| Rejected (msg : string).

(** What can be observed on the transport: a frame handed to it, and the
    settling of that exchange. *)
Inductive Event : Type :=
| Sent (args : SendArgs)
| Received (reply : Reply).

Module AddressResult.
Record t : Type := mk {
  publicKey : string;
  address : string;
  returnCode : jsnum
}.
End AddressResult.

Module SignResult.
Record t : Type := mk {
  signature : option Buffer;
  returnCode : jsnum
}.
End SignResult.

Record VersionResult : Type := mkVersion { version : string }.

Section Hedera.

(** The transport collaborator: a state, and one exchange as a transition
    that yields the raw response bytes or throws. *)
Variable TState : Type.
Variable exchange : SendArgs -> TState -> Reply * TState.

(** The path-parsing collaborator, [BIPPath.fromString(path).toPathArray()];
    [None] when it throws. *)
Variable BIPPath_fromString : string -> option (list Z).

Record World : Type := mkWorld {
  device : TState;
  trace : list Event
}.

(** An operation with local mutable variables of type [L]: it runs from
    the locals and the world, and ends with a value or an exception. *)
Definition Async (L A : Type) : Type := L -> World -> Result A * L * World.

Definition ret {L A} (a : A) : Async L A := fun l w => (Ok a, l, w).

Definition throw {L A} (e : Error) : Async L A := fun l w => (Throw e, l, w).

Definition bind {L A B} (m : Async L A) (k : A -> Async L B) : Async L B :=
  fun l w =>
    match m l w with
    | (Ok a, l', w') => k a l' w'
    | (Throw e, l', w') => (Throw e, l', w')
    end.

Definition lift {L A} (r : Result A) : Async L A := fun l w => (r, l, w).

Definition get {L} : Async L L := fun l w => (Ok l, l, w).

Definition put {L} (l : L) : Async L unit := fun _ w => (Ok tt, l, w).

(** [await this.transport.send(...)]: the frame is handed to the transport,
    and the operation resumes when the exchange has settled. *)
Definition transport_send {L} (args : SendArgs) : Async L Buffer :=
  fun l w =>
    let '(reply, dev') := exchange args (device w) in
    (match reply with
     | Response bytes => Ok bytes
     | Rejected msg => Throw (TransportError msg)
     end,
     l, mkWorld dev' (trace w ++ [Sent args; Received reply])).

(** The parsed path array of a path string. *)
Definition toPathArray {L} (path : string) : Async L (list Z) :=
  match BIPPath_fromString path with
  | Some bipPath => ret bipPath
  | None => throw PathError
  end.

Notation "'do' x <- m 'in' k" := (bind m (fun x => k))
  (at level 10, x name, m at level 100, k at level 200).

(** *** [foreach] *)

(** [iterate(index, array, result)]; [rest] is [array] from [index] on, so
    that [index >= array.length] is [rest = []] and [array[index]] is its
    head.  The next callback is started by the continuation of the
    previous one. *)
Fixpoint iterate {L T A} (callback : T -> nat -> Async L A)
    (index : nat) (rest : list T) (result : list A) : Async L (list A) :=
  match rest with
  | [] => ret result
  | t :: rest' =>
      do res <- callback t index in
      iterate callback (S index) rest' (result ++ [res])
  end.

Definition foreach {L T A} (arr : list T) (callback : T -> nat -> Async L A)
  : Async L (list A) :=
  iterate callback 0 arr [].

(** *** [getAddress] *)

Definition getAddress (path : string) (display : option bool)
  : Async unit AddressResult.t :=
  do bipPath <- toPathArray path in
  do serializedPath <- lift (serializePath bipPath) in
  let p1 := match display with Some true => 0x01 | _ => 0x00 end in
  let p2 := 0x00 in
  let statusList := [SW_OK; SW_CANCEL] in
  do response <- transport_send
    (mkSend CLA INS.GET_ADDR p1 p2 (Some serializedPath) (Some statusList)) in
  let returnCode := returnCodeOf response in
  if strict_eq returnCode SW_CANCEL then throw UserRefusedAddress
  else ret (AddressResult.mk (toHex response) EmptyString returnCode).

(** *** [signTransaction] *)

(** [Buffer.from(message)]: the bytes of the message. *)
Definition Buffer_from (message : Buffer) : Buffer := message.

(** Parameter 1 of the frame of chunk [j] out of [nchunks]. *)
Definition chunkType (j nchunks : nat) : Z :=
  if (j =? 0)%nat then PAYLOAD_TYPE_INIT
  else if (j + 1 =? nchunks)%nat then PAYLOAD_TYPE_LAST
  else PAYLOAD_TYPE_ADD.

(** The arguments of the send of chunk [j]. *)
Definition signFrame (nchunks : nat) (chunk : Buffer) (j : nat) : SendArgs :=
  mkSend CLA INS.SIGN (chunkType j nchunks) 0 (Some chunk) (Some [SW_OK; SW_CANCEL]).

(** The callback given to [foreach]: send chunk [j] out of [nchunks], and
    assign the reply to [response]. *)
Definition sendChunk (nchunks : nat) (chunk : Buffer) (j : nat)
  : Async (option Buffer) Buffer :=
  do apduResponse <- transport_send (signFrame nchunks chunk j) in
  do _ <- put (Some apduResponse) in
  ret apduResponse.

(** The local variable of [signTransaction] is [response], undefined
    ([None]) until the first reply is assigned to it. *)
Definition signTransaction (path : string) (message : Buffer)
  : Async (option Buffer) SignResult.t :=
  do bipPath <- toPathArray path in
  do serializedPath <- lift (serializePath bipPath) in
  let chunks := [serializedPath] in
  let buffer := Buffer_from message in
  let chunks := sliceLoop buffer 0 chunks in
  do _ <- foreach chunks (sendChunk (length chunks)) in
  do response <- get in
  match response with
  | None => throw TypeError
  | Some response =>
      let returnCode := returnCodeOf response in
      let signature :=
        if (2 <? length response)%nat
        then Some (Buffer_slice response 0 (Z.of_nat (length response) - 2))
        else None in
      if strict_eq returnCode SW_CANCEL then throw UserRefusedOnDevice
      else ret (SignResult.mk signature returnCode)
  end.

(** *** [getAppConfiguration] *)

Definition getAppConfiguration : Async unit VersionResult :=
  do response <- transport_send (mkSend CLA INS.GET_VERSION 0x00 0x00 None None) in
  let result := mkVersion EmptyString in
  let result :=
    mkVersion (EmptyString ++ js_toString (response !! 1%nat) ++ "."
               ++ js_toString (response !! 2%nat) ++ "."
               ++ js_toString (response !! 3%nat))%string in
  ret result.

End Hedera.

Arguments mkWorld {TState} _ _.
Arguments device {TState} _.
Arguments trace {TState} _.
Arguments ret {TState L A} _ _ _.
Arguments throw {TState L A} _ _ _.
Arguments bind {TState L A B} _ _ _ _.
Arguments lift {TState L A} _ _ _.
Arguments get {TState L} _ _.
Arguments put {TState L} _ _ _.
Arguments transport_send {TState} _ {L} _ _ _.
Arguments iterate {TState L T A} _ _ _ _ _ _.
Arguments foreach {TState L T A} _ _ _ _.
Arguments toPathArray {TState} _ {L} _ _ _.
Arguments sendChunk {TState} _ _ _ _ _ _.
Arguments getAddress {TState} _ _ _ _ _ _.
Arguments signTransaction {TState} _ _ _ _ _ _.
Arguments getAppConfiguration {TState} _ _ _.

(** ** Running an operation and observing its trace *)

(** An operation run from its initial locals on a transport in state [dev]:
    how it ends, and the events it caused on the transport. *)
Definition run {TState L A} (m : Async TState L A) (l0 : L) (dev : TState)
  : Result A * list Event :=
  let '(r, _, w) := m l0 (mkWorld dev []) in (r, trace w).

(** The frames handed to the transport, in order. *)
Fixpoint sentFrames (tr : list Event) : list SendArgs :=
  match tr with
  | [] => []
  | Sent args :: rest => args :: sentFrames rest
  | Received _ :: rest => sentFrames rest
  end.

(** The settled exchanges, in order. *)
Fixpoint receivedReplies (tr : list Event) : list Reply :=
  match tr with
  | [] => []
  | Sent _ :: rest => receivedReplies rest
  | Received reply :: rest => reply :: receivedReplies rest
  end.

(** The data bytes of a frame (none when the call gives no data). *)
Definition frameData (args : SendArgs) : Buffer :=
  match data args with
  | Some d => d
  | None => []
  end.

(** The largest number of exchanges pending at any moment of a trace that
    starts with [pending] of them: a [Sent] opens one, a [Received] settles
    one. *)
Fixpoint maxInFlight (pending : nat) (tr : list Event) : nat :=
  match tr with
  | [] => pending
  | Sent _ :: rest => Nat.max pending (maxInFlight (S pending) rest)
  | Received _ :: rest => Nat.max pending (maxInFlight (pred pending) rest)
  end.

(** A trace in which every frame is followed by its reply before the next
    frame is sent. *)
Inductive alternates : list Event -> Prop :=
| alternates_nil : alternates []
| alternates_cons (args : SendArgs) (reply : Reply) (tr : list Event) :
    alternates tr -> alternates (Sent args :: Received reply :: tr).

(** An operation ended by a rejection of the transport. *)
Definition isRejection {A} (r : Result A) : bool :=
  match r with
  | Throw (TransportError _) => true
  | _ => false
  end.

(** A status list that lets both SUCCESS and USER_REFUSED through. *)
Definition acceptsBoth (args : SendArgs) : Prop :=
  exists l : list Z, statusList args = Some l /\ In SW_OK l /\ In SW_CANCEL l.

(** [ceil(a / b)] on natural numbers. *)
Definition ceilDiv (a b : nat) : nat := ((a + b - 1) / b)%nat.

(** The single frame of [getAddress] for a serialized path. *)
Definition addressFrame (display : option bool) (sp : Buffer) : SendArgs :=
  mkSend CLA INS.GET_ADDR (match display with Some true => 0x01 | _ => 0x00 end)
    0x00 (Some sp) (Some [SW_OK; SW_CANCEL]).

(** The frames of a signing operation: chunk [j] of [chunks] in frame [j],
    here for the chunks from index [j] on. *)
Fixpoint framesFrom (nchunks j : nat) (rest : list Buffer) : list SendArgs :=
  match rest with
  | [] => []
  | chunk :: rest' => signFrame nchunks chunk j :: framesFrom nchunks (S j) rest'
  end.

Definition signFrames (chunks : list Buffer) : list SendArgs :=
  framesFrom (length chunks) 0 chunks.

(** Sending frames one after the other, each from the transport state the
    previous exchange left, up to the first rejection: the events, the final
    transport state, the last response (or [response] when there is none) and
    the rejection, if any.  [signTransaction] is proved to behave so. *)
Fixpoint sendInOrder {TState} (exchange : SendArgs -> TState -> Reply * TState)
    (frames : list SendArgs) (dev : TState) (response : option Buffer)
  : list Event * TState * option Buffer * option string :=
  match frames with
  | [] => ([], dev, response, None)
  | frame :: rest =>
      match exchange frame dev with
      | (Response bytes, dev') =>
          let '(evs, dev'', response', err) :=
            sendInOrder exchange rest dev' (Some bytes) in
          (Sent frame :: Received (Response bytes) :: evs, dev'', response', err)
      | (Rejected msg, dev') =>
          ([Sent frame; Received (Rejected msg)], dev', response, Some msg)
      end
  end.

(** ** Transports and parsers used to run the operations on examples *)

(** A replaying transport, as the record store of the transport mocker: the
    state is the list of replies still to give. *)
Definition replay (args : SendArgs) (script : list Reply) : Reply * list Reply :=
  match script with
  | [] => (Rejected "no more records", [])
  | reply :: rest => (reply, rest)
  end.

(** A parser that yields the same path array for every string. *)
Definition fixedPath (bipPath : list Z) (path : string) : option (list Z) :=
  Some bipPath.

(** The path array of ["44/3030/0/0/0"] and its serialization. *)
Definition hederaPath : list Z := [44; 3030; 0; 0; 0].

Definition hederaSerialized : Buffer :=
  [5; 0; 0; 0; 44; 0; 0; 11; 214; 0; 0; 0; 0; 0; 0; 0; 0; 0; 0; 0; 0].

(** A reply payload of 32 bytes, 1 to 32. *)
Definition mockKey : Buffer := map Z.of_nat (seq 1 32).

(** A message of 600 bytes, and paths of 63 and of 128 segments. *)
Definition message600 : Buffer := replicate 600 0x2a.
Definition path63 : list Z := replicate 63 0.
Definition path128 : list Z := replicate 128 0.

(** [getAddress("44/3030/0/0/0", false)] on a transport that replies the 32
    bytes followed by 0x90 0x00. *)
Definition addressRun : Result AddressResult.t * list Event :=
  run (getAddress replay (fixedPath hederaPath) "44/3030/0/0/0" (Some false)) tt
    [Response (mockKey ++ [0x90; 0x00])].

(** [signTransaction("44/3030/0/0/0", message)] for the 600-byte message, on
    a transport that accepts every chunk. *)
Definition sign600Run : Result SignResult.t * list Event :=
  run (signTransaction replay (fixedPath hederaPath) "44/3030/0/0/0" message600) None
    (replicate 4 (Response [0x90; 0x00])).

(** [signTransaction("44/3030/0/0/0", message)] for an empty message. *)
Definition signEmptyRun : Result SignResult.t * list Event :=
  run (signTransaction replay (fixedPath hederaPath) "44/3030/0/0/0" []) None
    [Response (mockKey ++ [0x90; 0x00])].

(** [signTransaction] with a path of 63 segments and an empty message. *)
Definition sign63Run : Result SignResult.t * list Event :=
  run (signTransaction replay (fixedPath path63) "0/0/.../0" []) None
    [Response [0x90; 0x00]].

(** [getAddress] and [signTransaction] (empty message) on a transport that
    replies the status of a user refusal. *)
Definition refusedAddressRun : Result AddressResult.t * list Event :=
  run (getAddress replay (fixedPath hederaPath) "44/3030/0/0/0" (Some false)) tt
    [Response [0x69; 0x86]].

Definition refusedSignRun : Result SignResult.t * list Event :=
  run (signTransaction replay (fixedPath hederaPath) "44/3030/0/0/0" []) None
    [Response [0x69; 0x86]].

(** [getAppConfiguration()] on a transport that replies version 1.2.3. *)
Definition versionRun : Result VersionResult * list Event :=
  run (getAppConfiguration replay) tt [Response [0x00; 1; 2; 3; 0x90; 0x00]].

(** ** Reading hexadecimal text back *)

(** The value of one lowercase hexadecimal digit, and the reader of a
    hexadecimal text, two digits per byte ([Buffer.from(text, "hex")] on
    well-formed text); they serve to state that [toHex] loses nothing. *)
Definition unhexDigit (c : ascii) : option Z :=
  let n := Z.of_N (N_of_ascii c) in
  if (48 <=? n) && (n <=? 57) then Some (n - 48)
  else if (97 <=? n) && (n <=? 102) then Some (n - 87)
  else None.

Fixpoint fromHex (text : string) : option Buffer :=
  match text with
  | EmptyString => Some []
  | String c1 (String c2 rest) =>
      match unhexDigit c1, unhexDigit c2, fromHex rest with
      | Some h, Some l, Some bytes => Some (h * 16 + l :: bytes)
      | _, _, _ => None
      end
  | String _ EmptyString => None
  end.

(** ** More runs on the replaying transport *)

(** [signTransaction] for the 600-byte message on a transport that accepts
    two chunks and rejects the third. *)
Definition rejectedSignRun : Result SignResult.t * list Event :=
  run (signTransaction replay (fixedPath hederaPath) "44/3030/0/0/0" message600) None
    [Response [0x90; 0x00]; Response [0x90; 0x00]; Rejected "device disconnected"].

(** [signTransaction] with the path of 128 segments. *)
Definition sign128Run : Result SignResult.t * list Event :=
  run (signTransaction replay (fixedPath path128) "0/0/.../0" message600) None
    (replicate 4 (Response [0x90; 0x00])).

(** [getAddress] on a transport whose reply has a single byte. *)
Definition shortAddressRun : Result AddressResult.t * list Event :=
  run (getAddress replay (fixedPath hederaPath) "44/3030/0/0/0" None) tt
    [Response [0x90]].

(** An empty world of the replaying transport. *)
Definition idleWorld : World (list Reply) := mkWorld [] [].

(** * Properties *)

(** ** The definitions on examples *)

Example serializePath_hedera :
  serializePath [44; 3030; 0; 0; 0]
  = Ok [5; 0; 0; 0; 44; 0; 0; 11; 214; 0; 0; 0; 0; 0; 0; 0; 0; 0; 0; 0; 0].
Proof. reflexivity. Qed.

Example toHex_ex : toHex [0; 171; 255; 144] = "00abff90"%string.
Proof. reflexivity. Qed.

Example slice_ex : Buffer_slice_from [1; 2; 3; 144; 0] (-2) = [144; 0].
Proof. reflexivity. Qed.

Example sliceLoop_ex :
  map length (sliceLoop (replicate 600 7) 0 [[1; 2; 3]]) = [3; 250; 250; 100]%nat.
Proof. vm_compute. reflexivity. Qed.

(** ** Bytes and big-endian groups *)

Lemma land_ff (v : Z) : Z.land v 0xff = v mod 256.
Proof. change 0xff with (Z.ones 8). now rewrite Z.land_ones by lia. Qed.

Lemma be32_unfold (v : Z) :
  be32 v = [(v / 2 ^ 24) mod 256; (v / 2 ^ 16) mod 256; (v / 2 ^ 8) mod 256; v mod 256].
Proof.
  unfold be32. rewrite !land_ff, !Z.shiftr_div_pow2 by lia. reflexivity.
Qed.

Lemma be32_bytes (v : Z) : Forall is_byte (be32 v).
Proof.
  rewrite be32_unfold. unfold is_byte.
  repeat constructor; apply Z.mod_pos_bound; lia.
Qed.

Lemma be32_length (v : Z) : length (be32 v) = 4%nat.
Proof. reflexivity. Qed.

Lemma decodeSegments_be32 (path : list Z) :
  Forall is_u32 path ->
  decodeSegments (length path) (flat_map be32 path) = path.
Proof.
  induction 1 as [|v path Hv _ IH]; [reflexivity|].
  cbn [flat_map length]. rewrite be32_unfold. cbn [app decodeSegments].
  rewrite IH. f_equal. unfold is_u32 in Hv.
  Z.div_mod_to_equations. lia.
Qed.

(** ** [serializePath] writes the length byte and the big-endian groups *)

Lemma writeUInt32BE_tail (pre rest : Buffer) (v : Z) :
  is_u32 v ->
  writeUInt32BE (pre ++ replicate 4 0 ++ rest) v (length pre)
  = Ok ((pre ++ be32 v) ++ rest).
Proof.
  intros [Hlo Hhi]. unfold writeUInt32BE.
  assert (Hc : (0 <=? v) && (v <=? 4294967295)
               && (length pre + 4 <=? length (pre ++ replicate 4 0%Z ++ rest))%nat = true).
  { rewrite !length_app, length_replicate.
    repeat (apply andb_true_intro; split);
      [apply Z.leb_le; lia | apply Z.leb_le; lia | apply Nat.leb_le; lia]. }
  rewrite Hc. f_equal.
  rewrite !insert_app_r_alt by lia.
  replace (length pre - length pre)%nat with 0%nat by lia.
  replace (length pre + 1 - length pre)%nat with 1%nat by lia.
  replace (length pre + 2 - length pre)%nat with 2%nat by lia.
  replace (length pre + 3 - length pre)%nat with 3%nat by lia.
  rewrite <- app_assoc. reflexivity.
Qed.

Lemma serializePath_forEach_spec (path : list Z) :
  forall (index : nat) (pre : Buffer),
    length pre = (1 + index * 4)%nat ->
    Forall is_u32 path ->
    serializePath_forEach path index (pre ++ replicate (length path * 4) 0)
    = Ok (pre ++ flat_map be32 path).
Proof.
  induction path as [|v path IH]; intros index pre Hlen Hu32.
  - cbn. reflexivity.
  - inversion Hu32 as [|? ? Hv Hrest]; subst.
    cbn [serializePath_forEach length flat_map].
    replace (S (length path) * 4)%nat with (4 + length path * 4)%nat by lia.
    rewrite replicate_add, <- Hlen, writeUInt32BE_tail by assumption.
    cbn [rbind]. rewrite IH; [now rewrite <- app_assoc | | assumption].
    rewrite length_app, be32_length. lia.
Qed.

Lemma serializePath_forEach_range (path : list Z) :
  forall (index : nat) (data data' : Buffer),
    serializePath_forEach path index data = Ok data' -> Forall is_u32 path.
Proof.
  induction path as [|v path IH]; intros index data data' H; [constructor|].
  cbn [serializePath_forEach] in H. unfold writeUInt32BE in H at 1.
  destruct ((0 <=? v) && (v <=? 4294967295)
            && (1 + index * 4 + 4 <=? length data)%nat) eqn:Hc; [|discriminate].
  cbn [rbind] in H. constructor; [|eauto].
  apply andb_prop in Hc as [Hc _]. apply andb_prop in Hc as [H1 H2].
  apply Z.leb_le in H1, H2. split; assumption.
Qed.

Lemma serializePath_ok (path : list Z) :
  (length path <= 127)%nat ->
  Forall is_u32 path ->
  serializePath path = Ok (Z.of_nat (length path) :: flat_map be32 path).
Proof.
  intros HL Hu32. unfold serializePath, Buffer_alloc, writeInt8.
  assert (Hc : (-128 <=? Z.of_nat (length path)) && (Z.of_nat (length path) <=? 127)
               && (0 <? length (replicate (1 + length path * 4) 0%Z))%nat = true).
  { rewrite length_replicate.
    repeat (apply andb_true_intro; split);
      [apply Z.leb_le; lia | apply Z.leb_le; lia | apply Nat.ltb_lt; lia]. }
  rewrite Hc. cbn [rbind Nat.add replicate]. cbn [insert list_insert].
  rewrite land_ff, Z.mod_small by lia.
  apply (serializePath_forEach_spec path 0 [Z.of_nat (length path)]); [reflexivity|assumption].
Qed.

Lemma serializePath_too_long (path : list Z) :
  (127 < length path)%nat -> serializePath path = Throw RangeError.
Proof.
  intros HL. unfold serializePath, writeInt8.
  replace (Z.of_nat (length path) <=? 127) with false
    by (symmetry; apply Z.leb_gt; lia).
  now rewrite andb_false_r.
Qed.

Lemma serializePath_inv (path : list Z) (sp : Buffer) :
  serializePath path = Ok sp ->
  (length path <= 127)%nat /\ Forall is_u32 path
  /\ sp = Z.of_nat (length path) :: flat_map be32 path.
Proof.
  intros H.
  destruct (le_lt_dec (length path) 127) as [HL|HL].
  - assert (Hu : Forall is_u32 path).
    { unfold serializePath in H.
      destruct (writeInt8 _ _ _) as [d|e]; [|discriminate].
      cbn [rbind] in H. eauto using serializePath_forEach_range. }
    rewrite serializePath_ok in H by assumption. inversion H. auto.
  - rewrite serializePath_too_long in H by assumption. discriminate.
Qed.

Lemma flat_map_be32_length (path : list Z) :
  length (flat_map be32 path) = (4 * length path)%nat.
Proof. induction path as [|v path IH]; cbn [flat_map length]; [reflexivity|]. rewrite length_app, be32_length. lia. Qed.

Lemma serializePath_length (path : list Z) (sp : Buffer) :
  serializePath path = Ok sp -> length sp = (1 + 4 * length path)%nat.
Proof.
  intros H. apply serializePath_inv in H as (_ & _ & ->).
  cbn [length]. now rewrite flat_map_be32_length.
Qed.

(** ** The slicing loop *)

Lemma slice_chunk (buffer : Buffer) (i : nat) :
  (i < length buffer)%nat ->
  Buffer_slice buffer (Z.of_nat i)
    (Z.of_nat (if (length buffer <? i)%nat then length buffer else (i + CHUNK_SIZE)%nat))
  = take CHUNK_SIZE (drop i buffer).
Proof.
  intros Hi.
  replace (length buffer <? i)%nat with false by (symmetry; apply Nat.ltb_ge; lia).
  unfold Buffer_slice, clampIndex.
  replace (Z.of_nat i <? 0) with false by (symmetry; apply Z.ltb_ge; lia).
  replace (Z.of_nat (i + CHUNK_SIZE) <? 0) with false by (symmetry; apply Z.ltb_ge; lia).
  rewrite !Nat2Z.id, (Nat.min_l i) by lia.
  destruct (le_lt_dec (i + CHUNK_SIZE) (length buffer)) as [H|H].
  - rewrite Nat.min_l by lia. f_equal. lia.
  - rewrite Nat.min_r by lia.
    rewrite !take_ge; [reflexivity | |]; rewrite length_drop; lia.
Qed.

(** One turn of the loop. *)
Lemma sliceLoop_step (buffer : Buffer) (i : nat) (chunks : list Buffer) :
  (i < length buffer)%nat ->
  sliceLoop buffer i chunks
  = sliceLoop buffer (i + CHUNK_SIZE) (chunks ++ [take CHUNK_SIZE (drop i buffer)]).
Proof.
  intros Hi. rewrite sliceLoop_equation_1.
  destruct (decide (i < length buffer)%nat) as [?|?]; [|lia].
  cbn. rewrite <- slice_chunk by assumption. reflexivity.
Qed.

(** Leaving the loop. *)
Lemma sliceLoop_exit (buffer : Buffer) (i : nat) (chunks : list Buffer) :
  (length buffer <= i)%nat -> sliceLoop buffer i chunks = chunks.
Proof.
  intros Hi. rewrite sliceLoop_equation_1.
  destruct (decide (i < length buffer)%nat) as [?|?]; [lia|reflexivity].
Qed.

(** Induction along the turns of the loop. *)
Lemma sliceLoop_induction (buffer : Buffer)
    (P : nat -> list Buffer -> list Buffer -> Prop) :
  (forall i chunks, (length buffer <= i)%nat -> P i chunks chunks) ->
  (forall i chunks out, (i < length buffer)%nat ->
     P (i + CHUNK_SIZE)%nat (chunks ++ [take CHUNK_SIZE (drop i buffer)]) out ->
     P i chunks out) ->
  forall i chunks, P i chunks (sliceLoop buffer i chunks).
Proof.
  intros Hexit Hstep i.
  remember (length buffer - i)%nat as m eqn:Hm. revert i Hm.
  induction m as [m IH] using lt_wf_ind. intros i Hm chunks.
  destruct (le_lt_dec (length buffer) i) as [Hi|Hi].
  - rewrite sliceLoop_exit by assumption. now apply Hexit.
  - rewrite sliceLoop_step by assumption. apply Hstep; [assumption|].
    apply (IH (length buffer - (i + CHUNK_SIZE))%nat); [unfold CHUNK_SIZE; lia | reflexivity].
Qed.

Lemma sliceLoop_concat (buffer : Buffer) (i : nat) (chunks : list Buffer) :
  concat (sliceLoop buffer i chunks) = concat chunks ++ drop i buffer.
Proof.
  apply (sliceLoop_induction buffer
           (fun i chunks out => concat out = concat chunks ++ drop i buffer)).
  - intros j cs Hj. now rewrite drop_ge, app_nil_r by assumption.
  - intros j cs out Hj ->.
    rewrite concat_app, <- app_assoc. f_equal. cbn [concat].
    rewrite app_nil_r, <- drop_drop. apply take_drop.
Qed.

Lemma ceilDiv_step (d : nat) :
  (0 < d)%nat -> ceilDiv d CHUNK_SIZE = S (ceilDiv (d - CHUNK_SIZE) CHUNK_SIZE).
Proof.
  unfold ceilDiv, CHUNK_SIZE. intros Hd.
  destruct (le_lt_dec 250 d) as [H|H].
  - replace (d + 250 - 1)%nat with (d - 250 + 250 - 1 + 1 * 250)%nat by lia.
    rewrite Nat.div_add by lia. lia.
  - replace (d - 250)%nat with 0%nat by lia.
    replace (d + 250 - 1)%nat with ((d - 1) + 1 * 250)%nat by lia.
    rewrite Nat.div_add by lia. rewrite Nat.div_small by lia.
    cbn. reflexivity.
Qed.

Lemma sliceLoop_length (buffer : Buffer) (i : nat) (chunks : list Buffer) :
  length (sliceLoop buffer i chunks)
  = (length chunks + ceilDiv (length buffer - i) CHUNK_SIZE)%nat.
Proof.
  apply (sliceLoop_induction buffer
           (fun i chunks out =>
              length out = (length chunks + ceilDiv (length buffer - i) CHUNK_SIZE)%nat)).
  - intros j cs Hj. replace (length buffer - j)%nat with 0%nat by lia.
    unfold ceilDiv, CHUNK_SIZE. cbn. lia.
  - intros j cs out Hj ->. rewrite length_app. cbn [length].
    rewrite (ceilDiv_step (length buffer - j)) by lia.
    replace (length buffer - (j + CHUNK_SIZE))%nat
      with (length buffer - j - CHUNK_SIZE)%nat by lia. lia.
Qed.

Lemma sliceLoop_sizes (buffer : Buffer) (i : nat) (chunks : list Buffer) :
  Forall (fun c : Buffer => (length c <= CHUNK_SIZE)%nat) chunks ->
  Forall (fun c : Buffer => (length c <= CHUNK_SIZE)%nat) (sliceLoop buffer i chunks).
Proof.
  apply (sliceLoop_induction buffer
           (fun i chunks out =>
              Forall (fun c : Buffer => (length c <= CHUNK_SIZE)%nat) chunks ->
              Forall (fun c : Buffer => (length c <= CHUNK_SIZE)%nat) out)).
  - auto.
  - intros j cs out Hj IH Hcs. apply IH.
    apply Forall_app. split; [assumption|].
    constructor; [|constructor]. rewrite length_take. lia.
Qed.

(** The chunks pushed before the loop stay in front. *)
Lemma sliceLoop_prefix (buffer : Buffer) (i : nat) (chunks : list Buffer) :
  sliceLoop buffer i chunks = chunks ++ sliceLoop buffer i [].
Proof.
  revert chunks.
  enough (H : forall chunks, exists more, forall pre : list Buffer,
               sliceLoop buffer i (pre ++ chunks) = pre ++ chunks ++ more).
  { intros chunks. destruct (H []) as [more Hm].
    specialize (Hm chunks) as H1. specialize (Hm []) as H2.
    cbn in H2. rewrite app_nil_r in H1. now rewrite H1, H2. }
  intros chunks.
  apply (sliceLoop_induction buffer
           (fun i chunks _ => exists more, forall pre : list Buffer,
               sliceLoop buffer i (pre ++ chunks) = pre ++ chunks ++ more)
           ) with (i := i) (chunks := chunks).
  - intros j cs Hj. exists []. intros pre.
    now rewrite sliceLoop_exit, app_nil_r by assumption.
  - intros j cs out Hj [more Hm].
    exists (take CHUNK_SIZE (drop j buffer) :: more). intros pre.
    rewrite sliceLoop_step by assumption.
    rewrite <- app_assoc, Hm, <- !app_assoc. reflexivity.
Qed.

(** The sizes of the chunks of a 600-byte message. *)
Lemma sliceLoop_sizes_600 (buffer : Buffer) (chunks : list Buffer) :
  length buffer = 600%nat ->
  map length (sliceLoop buffer 0 chunks) = (map length chunks ++ [250; 250; 100])%nat.
Proof.
  intros H600.
  rewrite (sliceLoop_step buffer 0) by lia.
  rewrite (sliceLoop_step buffer (0 + CHUNK_SIZE)) by (unfold CHUNK_SIZE; lia).
  rewrite (sliceLoop_step buffer (0 + CHUNK_SIZE + CHUNK_SIZE)) by (unfold CHUNK_SIZE; lia).
  rewrite sliceLoop_exit by (unfold CHUNK_SIZE; lia).
  rewrite !map_app. cbn [map]. rewrite !length_take, !length_drop, H600.
  rewrite <- !app_assoc. reflexivity.
Qed.

(** ** Traces *)

Lemma alternates_maxInFlight (tr : list Event) :
  alternates tr -> (maxInFlight 0 tr <= 1)%nat.
Proof.
  induction 1 as [|args reply tr _ IH]; cbn [maxInFlight pred]; lia.
Qed.

Lemma framesFrom_data (n j : nat) (rest : list Buffer) :
  map frameData (framesFrom n j rest) = rest.
Proof.
  revert j. induction rest as [|c rest IH]; intros j; cbn; [reflexivity|].
  now rewrite IH.
Qed.

Lemma framesFrom_length (n j : nat) (rest : list Buffer) :
  length (framesFrom n j rest) = length rest.
Proof.
  revert j. induction rest as [|c rest IH]; intros j; cbn; [reflexivity|].
  now rewrite IH.
Qed.

Lemma framesFrom_statusList (n j : nat) (rest : list Buffer) :
  Forall (fun f => statusList f = Some [SW_OK; SW_CANCEL]) (framesFrom n j rest).
Proof.
  revert j. induction rest as [|c rest IH]; intros j; cbn [framesFrom];
    constructor; [reflexivity | apply IH].
Qed.

(** ** Sending in order *)

Section Operations.

Context {TState : Type}.
Variable exchange : SendArgs -> TState -> Reply * TState.
Variable BIPPath_fromString : string -> option (list Z).

Ltac send_step H :=
  cbn [sendInOrder] in H;
  let bytes := fresh "bytes" in
  let msg := fresh "msg" in
  let dev1 := fresh "dev1" in
  let Hex := fresh "Hex" in
  let Hrec := fresh "Hrec" in
  destruct (exchange _ _) as [[bytes|msg] dev1] eqn:Hex;
  [ destruct (sendInOrder exchange _ dev1 _) as [[[? ?] ?] ?] eqn:Hrec | ];
  inversion H; subst; clear H.

Lemma sendInOrder_alternates (frames : list SendArgs) :
  forall dev l evs dev' l' err,
    sendInOrder exchange frames dev l = (evs, dev', l', err) ->
    alternates evs.
Proof.
  induction frames as [|f frames IH]; intros dev l evs dev' l' err H.
  - inversion H. constructor.
  - send_step H; repeat constructor. eauto.
Qed.

(** The frames sent are an initial segment of the frames to send, one per
    settled exchange. *)
Lemma sendInOrder_sent (frames : list SendArgs) :
  forall dev l evs dev' l' err,
    sendInOrder exchange frames dev l = (evs, dev', l', err) ->
    sentFrames evs = take (length (receivedReplies evs)) frames
    /\ (length (receivedReplies evs) <= length frames)%nat.
Proof.
  induction frames as [|f frames IH]; intros dev l evs dev' l' err H.
  - inversion H. split; reflexivity.
  - send_step H; cbn.
    + destruct (IH _ _ _ _ _ _ Hrec) as [-> Hle]. split; [reflexivity | lia].
    + split; [now rewrite take_0 | lia].
Qed.

(** Without a rejection every frame is sent, and [response] ends as the
    reply to the last frame. *)
Lemma sendInOrder_complete (frames : list SendArgs) :
  forall dev l evs dev' l',
    sendInOrder exchange frames dev l = (evs, dev', l', None) ->
    sentFrames evs = frames
    /\ length (receivedReplies evs) = length frames
    /\ (frames = [] /\ l' = l
        \/ exists resp, l' = Some resp
             /\ receivedReplies evs !! (length frames - 1)%nat = Some (Response resp)).
Proof.
  induction frames as [|f frames IH]; intros dev l evs dev' l' H.
  - inversion H. cbn. auto.
  - send_step H. cbn.
    destruct (IH _ _ _ _ _ Hrec) as (-> & Hlen & Hlast).
    rewrite Hlen. split; [reflexivity|]. split; [reflexivity|]. right.
    destruct Hlast as [[-> ->]|(resp & -> & Hresp)].
    + exists bytes. cbn in Hrec. inversion Hrec. auto.
    + exists resp. split; [reflexivity|].
      apply lookup_lt_Some in Hresp as Hlt. rewrite Hlen in Hlt.
      match goal with
      | |- _ !! ?n = _ => replace n with (S (length frames - 1)) by lia
      end.
      exact Hresp.
Qed.

(** A rejection is the last event, and settles a frame of the list. *)
Lemma sendInOrder_rejected (frames : list SendArgs) :
  forall dev l evs dev' l' msg,
    sendInOrder exchange frames dev l = (evs, dev', l', Some msg) ->
    exists k, (k < length frames)%nat
      /\ length (receivedReplies evs) = S k
      /\ receivedReplies evs !! k = Some (Rejected msg).
Proof.
  induction frames as [|f frames IH]; intros dev l evs dev' l' msg H.
  - inversion H.
  - send_step H.
    + destruct (IH _ _ _ _ _ _ Hrec) as (k & Hk & Hlen & Hlook).
      exists (S k). cbn. rewrite Hlen. repeat split; [lia | exact Hlook].
    + exists 0%nat. cbn. repeat split. lia.
Qed.

(** ** The operations, run *)

Lemma sendChunk_run (n : nat) (chunk : Buffer) (j : nat)
    (l : option Buffer) (w : World TState) :
  sendChunk exchange n chunk j l w
  = match exchange (signFrame n chunk j) (device w) with
    | (Response bytes, dev') =>
        (Ok bytes, Some bytes,
         mkWorld dev' (trace w ++ [Sent (signFrame n chunk j); Received (Response bytes)]))
    | (Rejected msg, dev') =>
        (Throw (TransportError msg), l,
         mkWorld dev' (trace w ++ [Sent (signFrame n chunk j); Received (Rejected msg)]))
    end.
Proof.
  unfold sendChunk, bind, transport_send, put, ret.
  destruct (exchange _ _) as [[bytes|msg] dev']; reflexivity.
Qed.

(** [foreach] over the chunks sends their frames in order. *)
Lemma iterate_sendInOrder (n : nat) (rest : list Buffer) :
  forall (index : nat) (result : list Buffer) (l : option Buffer) (w : World TState),
  exists res : list Buffer,
    iterate (sendChunk exchange n) index rest result l w
    = let '(evs, dev', l', err) :=
        sendInOrder exchange (framesFrom n index rest) (device w) l in
      (match err with
       | None => Ok res
       | Some msg => Throw (TransportError msg)
       end, l', mkWorld dev' (trace w ++ evs)).
Proof.
  induction rest as [|chunk rest IH]; intros index result l w.
  - exists result. destruct w as [dev tr]. cbn. now rewrite app_nil_r.
  - cbn [iterate framesFrom sendInOrder]. unfold bind at 1.
    rewrite sendChunk_run.
    destruct (exchange _ _) as [[bytes|msg] dev1].
    + destruct (IH (S index) (result ++ [bytes]) (Some bytes)
                  (mkWorld dev1 (trace w ++
                     [Sent (signFrame n chunk index); Received (Response bytes)])))
        as [res Hres].
      exists res. rewrite Hres. cbn [device trace].
      destruct (sendInOrder _ _ _ _) as [[[evs dev2] l2] err].
      now rewrite <- app_assoc.
    + exists result. reflexivity.
Qed.

Lemma signTransaction_run (path : string) (message : Buffer)
    (bipPath : list Z) (sp : Buffer) (dev : TState) :
  BIPPath_fromString path = Some bipPath ->
  serializePath bipPath = Ok sp ->
  forall evs dev' l' err,
    sendInOrder exchange (signFrames (sliceLoop message 0 [sp])) dev None
    = (evs, dev', l', err) ->
    run (signTransaction exchange BIPPath_fromString path message) None dev
    = (match err with
       | Some msg => Throw (TransportError msg)
       | None =>
           match l' with
           | None => Throw TypeError
           | Some response =>
               if strict_eq (returnCodeOf response) SW_CANCEL
               then Throw UserRefusedOnDevice
               else Ok (SignResult.mk
                          (if (2 <? length response)%nat
                           then Some (Buffer_slice response 0
                                        (Z.of_nat (length response) - 2))
                           else None)
                          (returnCodeOf response))
           end
       end, evs).
Proof.
  intros Hparse Hser evs dev' l' err Hsend.
  unfold run, signTransaction, toPathArray, Buffer_from, foreach.
  unfold bind at 1. rewrite Hparse. unfold ret at 1.
  unfold bind at 1. rewrite Hser. unfold lift at 1.
  unfold bind at 1.
  destruct (iterate_sendInOrder (length (sliceLoop message 0 [sp]))
              (sliceLoop message 0 [sp]) 0 [] None (mkWorld dev []))
    as [res ->].
  cbn [device trace]. unfold signFrames in Hsend. rewrite Hsend.
  destruct err as [msg|]; [reflexivity|].
  unfold bind, get. destruct l' as [response|]; [|reflexivity].
  destruct (strict_eq _ _); reflexivity.
Qed.

(** Nothing is sent when the path does not parse or does not serialize. *)
Lemma signTransaction_parse_fail (path : string) (message : Buffer) (dev : TState) :
  BIPPath_fromString path = None ->
  run (signTransaction exchange BIPPath_fromString path message) None dev
  = (Throw PathError, []).
Proof.
  intros Hparse. unfold run, signTransaction, toPathArray.
  unfold bind at 1. now rewrite Hparse.
Qed.

Lemma signTransaction_serialize_fail (path : string) (message : Buffer)
    (bipPath : list Z) (e : Error) (dev : TState) :
  BIPPath_fromString path = Some bipPath ->
  serializePath bipPath = Throw e ->
  run (signTransaction exchange BIPPath_fromString path message) None dev
  = (Throw e, []).
Proof.
  intros Hparse Hser. unfold run, signTransaction, toPathArray.
  unfold bind at 1. rewrite Hparse. unfold ret at 1.
  unfold bind at 1. now rewrite Hser.
Qed.

Lemma getAddress_run (path : string) (display : option bool)
    (bipPath : list Z) (sp : Buffer) (dev : TState) :
  BIPPath_fromString path = Some bipPath ->
  serializePath bipPath = Ok sp ->
  run (getAddress exchange BIPPath_fromString path display) tt dev
  = match exchange (addressFrame display sp) dev with
    | (Response response, _) =>
        (if strict_eq (returnCodeOf response) SW_CANCEL
         then Throw UserRefusedAddress
         else Ok (AddressResult.mk (toHex response) EmptyString (returnCodeOf response)),
         [Sent (addressFrame display sp); Received (Response response)])
    | (Rejected msg, _) =>
        (Throw (TransportError msg),
         [Sent (addressFrame display sp); Received (Rejected msg)])
    end.
Proof.
  intros Hparse Hser.
  unfold run, getAddress, toPathArray.
  unfold bind at 1. rewrite Hparse. unfold ret at 1.
  unfold bind at 1. rewrite Hser. unfold lift at 1.
  unfold bind, transport_send. cbn [device trace app].
  fold (addressFrame display sp).
  destruct (exchange _ _) as [[response|msg] dev']; [|reflexivity].
  destruct (strict_eq _ _); reflexivity.
Qed.

Lemma getAddress_parse_fail (path : string) (display : option bool) (dev : TState) :
  BIPPath_fromString path = None ->
  run (getAddress exchange BIPPath_fromString path display) tt dev
  = (Throw PathError, []).
Proof.
  intros Hparse. unfold run, getAddress, toPathArray.
  unfold bind at 1. now rewrite Hparse.
Qed.

Lemma getAddress_serialize_fail (path : string) (display : option bool)
    (bipPath : list Z) (e : Error) (dev : TState) :
  BIPPath_fromString path = Some bipPath ->
  serializePath bipPath = Throw e ->
  run (getAddress exchange BIPPath_fromString path display) tt dev
  = (Throw e, []).
Proof.
  intros Hparse Hser. unfold run, getAddress, toPathArray.
  unfold bind at 1. rewrite Hparse. unfold ret at 1.
  unfold bind at 1. now rewrite Hser.
Qed.

Lemma getAppConfiguration_sent (dev : TState) :
  sentFrames (snd (run (getAppConfiguration exchange) tt dev))
  = [mkSend CLA INS.GET_VERSION 0x00 0x00 None None].
Proof.
  unfold run, getAppConfiguration, bind, transport_send.
  destruct (exchange _ _) as [[response|msg] dev']; reflexivity.
Qed.

End Operations.

(** ** Response decoding *)

Lemma slice_last_two (payload : Buffer) (hi lo : Z) :
  Buffer_slice_from (payload ++ [hi; lo]) (-2) = [hi; lo].
Proof.
  unfold Buffer_slice_from, Buffer_slice, clampIndex.
  rewrite length_app. cbn [length].
  replace (-2 <? 0) with true by reflexivity.
  replace (Z.of_nat (length payload + 2) <? 0) with false
    by (symmetry; apply Z.ltb_ge; lia).
  rewrite Nat2Z.id, Nat.min_id.
  replace (Z.to_nat (Z.max (Z.of_nat (length payload + 2) + -2) 0))
    with (length payload) by lia.
  rewrite drop_app_length.
  replace (length payload + 2 - length payload)%nat with 2%nat by lia.
  reflexivity.
Qed.

(** The status is the big-endian value of the last two bytes. *)
Lemma returnCodeOf_big_endian (payload : Buffer) (hi lo : Z) :
  returnCodeOf (payload ++ [hi; lo]) = Num (hi * 0x100 + lo).
Proof. unfold returnCodeOf. now rewrite slice_last_two. Qed.

Lemma strict_eq_true (n : jsnum) (c : Z) : strict_eq n c = true <-> n = Num c.
Proof.
  destruct n as [v|]; cbn; [|split; discriminate].
  rewrite Z.eqb_eq. split; [now intros ->|now inversion 1].
Qed.

Lemma strict_eq_false (n : jsnum) (c : Z) : strict_eq n c = false <-> n <> Num c.
Proof.
  rewrite <- strict_eq_true. destruct (strict_eq n c); split; congruence.
Qed.

Lemma toHex_app (a b : Buffer) : toHex (a ++ b) = (toHex a ++ toHex b)%string.
Proof. induction a as [|x a IH]; cbn; [reflexivity|]. now rewrite IH. Qed.

Lemma toHex_length (a : Buffer) : String.length (toHex a) = (2 * length a)%nat.
Proof. induction a as [|x a IH]; cbn; [reflexivity|]. rewrite IH. lia. Qed.

Lemma string_app_length (a b : string) :
  String.length (a ++ b) = (String.length a + String.length b)%nat.
Proof. induction a as [|c a IH]; cbn; [reflexivity|]. now rewrite IH. Qed.

(** ** The operations of the module *)

Section Protocol.

Context {TState : Type}.
Variable exchange : SendArgs -> TState -> Reply * TState.
Variable BIPPath_fromString : string -> option (list Z).

(** C1 (defect of [getAddress]): the public key returned is the hexadecimal
    image of the whole response, status word included, where the specification has
    the response without its two status bytes: for a reply
    [payload ++ [hi; lo]] that is not a user refusal, [publicKey] is the
    image of [payload] followed by the four digits of the status word, so
    it is not the image of [payload]; [returnCode] is the decoded status. *)
Theorem getAddress_publicKey_keeps_status (path : string) (display : option bool)
    (bipPath : list Z) (sp payload : Buffer) (hi lo : Z) (dev dev' : TState) :
  BIPPath_fromString path = Some bipPath ->
  serializePath bipPath = Ok sp ->
  exchange (addressFrame display sp) dev = (Response (payload ++ [hi; lo]), dev') ->
  hi * 0x100 + lo <> SW_CANCEL ->
  exists res : AddressResult.t,
    fst (run (getAddress exchange BIPPath_fromString path display) tt dev) = Ok res
    /\ AddressResult.publicKey res = (toHex payload ++ toHex [hi; lo])%string
    /\ AddressResult.publicKey res <> toHex payload
    /\ AddressResult.returnCode res = Num (hi * 0x100 + lo).
Proof.
  intros Hparse Hser Hex Hsw.
  rewrite (getAddress_run exchange BIPPath_fromString path display bipPath sp dev Hparse Hser), Hex.
  rewrite returnCodeOf_big_endian.
  replace (strict_eq (Num (hi * 0x100 + lo)) SW_CANCEL) with false
    by (symmetry; apply strict_eq_false; congruence).
  eexists. split; [reflexivity|]. cbn [AddressResult.publicKey AddressResult.returnCode].
  rewrite toHex_app. repeat split; [].
  intros Heq. apply (f_equal String.length) in Heq.
  rewrite string_app_length in Heq. cbn in Heq. lia.
Qed.

(** C10: whenever [getAddress] returns a result, its [address] field is the
    empty string, whatever the path, the display flag and the reply. *)
Theorem getAddress_address_empty (path : string) (display : option bool)
    (dev : TState) (res : AddressResult.t) :
  fst (run (getAddress exchange BIPPath_fromString path display) tt dev) = Ok res ->
  AddressResult.address res = EmptyString.
Proof.
  destruct (BIPPath_fromString path) as [bipPath|] eqn:Hparse.
  - destruct (serializePath bipPath) as [sp|e] eqn:Hser.
    + rewrite (getAddress_run exchange BIPPath_fromString path display bipPath sp dev Hparse Hser).
      destruct (exchange _ _) as [[response|msg] dev']; cbn [fst]; [|discriminate].
      destruct (strict_eq _ _); [discriminate|].
      intros H. inversion H. reflexivity.
    + rewrite (getAddress_serialize_fail exchange BIPPath_fromString path display bipPath e dev Hparse Hser).
      discriminate.
  - rewrite (getAddress_parse_fail exchange BIPPath_fromString path display dev Hparse).
    discriminate.
Qed.

(** Every run of [signTransaction] that gets to send is a sending in order
    of the frames of its chunks. *)
Lemma signTransaction_sends (path : string) (message : Buffer)
    (bipPath : list Z) (sp : Buffer) (dev : TState) :
  BIPPath_fromString path = Some bipPath ->
  serializePath bipPath = Ok sp ->
  exists dev' l' err,
    sendInOrder exchange (signFrames (sliceLoop message 0 [sp])) dev None
    = (snd (run (signTransaction exchange BIPPath_fromString path message) None dev),
       dev', l', err)
    /\ (isRejection (fst (run (signTransaction exchange BIPPath_fromString path message)
                            None dev)) = false -> err = None).
Proof.
  intros Hparse Hser.
  destruct (sendInOrder exchange (signFrames (sliceLoop message 0 [sp])) dev None)
    as [[[evs dev'] l'] err] eqn:Hsend.
  rewrite (signTransaction_run exchange BIPPath_fromString path message bipPath sp dev
             Hparse Hser evs dev' l' err Hsend).
  exists dev', l', err. split; [reflexivity|].
  destruct err as [msg|]; [discriminate|reflexivity].
Qed.

Lemma signTransaction_sent_prefix (path : string) (message : Buffer)
    (bipPath : list Z) (sp : Buffer) (dev : TState) :
  BIPPath_fromString path = Some bipPath ->
  serializePath bipPath = Ok sp ->
  let chunks := sliceLoop message 0 [sp] in
  let r := run (signTransaction exchange BIPPath_fromString path message) None dev in
  exists k : nat,
    (1 <= k <= length chunks)%nat
    /\ sentFrames (snd r) = take k (signFrames chunks)
    /\ (isRejection (fst r) = false -> k = length chunks).
Proof.
  intros Hparse Hser chunks r.
  destruct (signTransaction_sends path message bipPath sp dev Hparse Hser)
    as (dev' & l' & err & Hsend & Herr).
  fold chunks in Hsend. fold r in Hsend, Herr.
  destruct (sendInOrder_sent exchange _ _ _ _ _ _ _ Hsend) as [Hsent Hle].
  unfold signFrames in Hle. rewrite framesFrom_length in Hle.
  assert (Hn : (1 <= length chunks)%nat).
  { unfold chunks. rewrite sliceLoop_length. cbn [length]. lia. }
  exists (length (receivedReplies (snd r))). split; [split; [|exact Hle]|split].
  - destruct err as [msg|].
    + destruct (sendInOrder_rejected exchange _ _ _ _ _ _ _ Hsend) as (k & _ & -> & _). lia.
    + destruct (sendInOrder_complete exchange _ _ _ _ _ _ Hsend) as (_ & -> & _).
      unfold signFrames. rewrite framesFrom_length. exact Hn.
  - exact Hsent.
  - intros Hrej. specialize (Herr Hrej). subst err.
    destruct (sendInOrder_complete exchange _ _ _ _ _ _ Hsend) as (_ & -> & _).
    unfold signFrames. now rewrite framesFrom_length.
Qed.

(** C6 (amended): every send of [getAddress] and of [signTransaction]
    passes a status list that contains both SUCCESS and USER_REFUSED;
    [getAppConfiguration] sends one frame and passes no status list. *)
Theorem statusList_of_operations (path : string) (display : option bool)
    (message : Buffer) (dev : TState) :
  Forall acceptsBoth
    (sentFrames (snd (run (getAddress exchange BIPPath_fromString path display) tt dev)))
  /\ Forall acceptsBoth
       (sentFrames (snd (run (signTransaction exchange BIPPath_fromString path message)
                           None dev)))
  /\ exists frame,
       sentFrames (snd (run (getAppConfiguration exchange) tt dev)) = [frame]
       /\ statusList frame = None.
Proof.
  assert (Hboth : forall f, statusList f = Some [SW_OK; SW_CANCEL] -> acceptsBoth f).
  { intros f Hf. exists [SW_OK; SW_CANCEL]. cbn. auto. }
  split; [|split].
  - destruct (BIPPath_fromString path) as [bipPath|] eqn:Hparse.
    + destruct (serializePath bipPath) as [sp|e] eqn:Hser.
      * rewrite (getAddress_run exchange BIPPath_fromString path display bipPath sp dev
                   Hparse Hser).
        destruct (exchange _ _) as [[response|msg] dev']; cbn;
          (constructor; [now apply Hboth | constructor]).
      * rewrite (getAddress_serialize_fail exchange BIPPath_fromString path display
                   bipPath e dev Hparse Hser). constructor.
    + rewrite (getAddress_parse_fail exchange BIPPath_fromString path display dev Hparse).
      constructor.
  - destruct (BIPPath_fromString path) as [bipPath|] eqn:Hparse.
    + destruct (serializePath bipPath) as [sp|e] eqn:Hser.
      * destruct (signTransaction_sent_prefix path message bipPath sp dev Hparse Hser)
          as (k & _ & -> & _).
        apply Forall_take. unfold signFrames.
        eapply Forall_impl; [apply framesFrom_statusList | exact Hboth].
      * rewrite (signTransaction_serialize_fail exchange BIPPath_fromString path message
                   bipPath e dev Hparse Hser). constructor.
    + rewrite (signTransaction_parse_fail exchange BIPPath_fromString path message dev
                 Hparse). constructor.
  - eexists. split; [apply getAppConfiguration_sent | reflexivity].
Qed.

(** C3 (amended): when a signing operation has exactly one chunk, its
    single frame carries PAYLOAD_TYPE_INIT (0x00) in parameter byte 1; this
    happens exactly when the message is empty, and the chunk is then the
    serialized path. *)
Theorem single_chunk_is_INIT (path : string) (message : Buffer)
    (bipPath : list Z) (sp : Buffer) (dev : TState) :
  BIPPath_fromString path = Some bipPath ->
  serializePath bipPath = Ok sp ->
  length (sliceLoop message 0 [sp]) = 1%nat ->
  message = []
  /\ sentFrames (snd (run (signTransaction exchange BIPPath_fromString path message)
                         None dev))
     = [mkSend CLA INS.SIGN PAYLOAD_TYPE_INIT 0 (Some sp) (Some [SW_OK; SW_CANCEL])].
Proof.
  intros Hparse Hser Hone.
  assert (Hmsg : message = []).
  { rewrite sliceLoop_length in Hone. cbn [length] in Hone.
    destruct message as [|b message]; [reflexivity|exfalso].
    rewrite Nat.sub_0_r, ceilDiv_step in Hone by (cbn; lia). lia. }
  split; [exact Hmsg|].
  destruct (signTransaction_sent_prefix path message bipPath sp dev Hparse Hser)
    as (k & Hk & -> & _).
  rewrite Hone in Hk. replace k with 1%nat by lia.
  subst message. rewrite sliceLoop_exit by (cbn; lia). reflexivity.
Qed.

(** C5 (amended): for a path of at most 62 segments, every chunk sent by
    [signTransaction] has at most 250 bytes of data, the chunk that carries
    the serialized path included. *)
Theorem chunks_at_most_250 (path : string) (message : Buffer)
    (bipPath : list Z) (dev : TState) :
  BIPPath_fromString path = Some bipPath ->
  (length bipPath <= 62)%nat ->
  Forall (fun frame => (length (frameData frame) <= CHUNK_SIZE)%nat)
    (sentFrames (snd (run (signTransaction exchange BIPPath_fromString path message)
                        None dev))).
Proof.
  intros Hparse HL.
  destruct (serializePath bipPath) as [sp|e] eqn:Hser.
  - destruct (signTransaction_sent_prefix path message bipPath sp dev Hparse Hser)
      as (k & _ & -> & _).
    apply Forall_take.
    apply (proj1 (List.Forall_map frameData
                    (fun c : Buffer => (length c <= CHUNK_SIZE)%nat) _)).
    unfold signFrames. rewrite framesFrom_data.
    apply sliceLoop_sizes. constructor; [|constructor].
    rewrite (serializePath_length bipPath sp Hser). unfold CHUNK_SIZE. lia.
  - rewrite (signTransaction_serialize_fail exchange BIPPath_fromString path message
               bipPath e dev Hparse Hser). constructor.
Qed.

(** C7: the data of the chunks sent by [signTransaction], concatenated in
    order, is always a prefix of the serialized path followed by the
    message, and is exactly that buffer whenever the transport rejects no
    frame. *)
Theorem sent_chunks_concat (path : string) (message : Buffer)
    (bipPath : list Z) (sp : Buffer) (dev : TState) :
  BIPPath_fromString path = Some bipPath ->
  serializePath bipPath = Ok sp ->
  let r := run (signTransaction exchange BIPPath_fromString path message) None dev in
  concat (map frameData (sentFrames (snd r))) `prefix_of` sp ++ message
  /\ (isRejection (fst r) = false ->
      concat (map frameData (sentFrames (snd r))) = sp ++ message).
Proof.
  intros Hparse Hser r.
  destruct (signTransaction_sent_prefix path message bipPath sp dev Hparse Hser)
    as (k & _ & Hsent & Hall).
  fold r in Hsent, Hall. rewrite Hsent.
  assert (Hdata : map frameData (take k (signFrames (sliceLoop message 0 [sp])))
                  = take k (sliceLoop message 0 [sp])).
  { change (map frameData) with (fmap (M := list) frameData).
    rewrite fmap_take. change (fmap (M := list) frameData) with (map frameData).
    unfold signFrames. now rewrite framesFrom_data. }
  rewrite Hdata.
  assert (Hcat : concat (sliceLoop message 0 [sp]) = sp ++ message).
  { rewrite sliceLoop_concat. cbn. now rewrite app_nil_r. }
  split.
  - exists (concat (drop k (sliceLoop message 0 [sp]))).
    now rewrite <- concat_app, take_drop.
  - intros Hrej. rewrite (Hall Hrej), firstn_all. exact Hcat.
Qed.

(** C2 (amended): the serialized path is a chunk of its own, sent first, and
    the message follows in slices of 250 bytes: when the transport rejects no
    frame, [signTransaction] sends 1 + ceil(M / 250) chunks for a message of
    M bytes, so at least one even for M = 0; a message of 600 bytes gives
    exactly 4 chunks, of sizes 1 + 4 * L (the path), 250, 250 and 100. *)
Theorem number_of_chunks (path : string) (message : Buffer)
    (bipPath : list Z) (sp : Buffer) (dev : TState) :
  BIPPath_fromString path = Some bipPath ->
  serializePath bipPath = Ok sp ->
  let r := run (signTransaction exchange BIPPath_fromString path message) None dev in
  isRejection (fst r) = false ->
  length (sentFrames (snd r)) = (1 + ceilDiv (length message) CHUNK_SIZE)%nat
  /\ (1 <= length (sentFrames (snd r)))%nat
  /\ (length message = 600%nat ->
      map (fun frame => length (frameData frame)) (sentFrames (snd r))
      = [1 + 4 * length bipPath; 250; 250; 100]%nat).
Proof.
  intros Hparse Hser r Hrej.
  destruct (signTransaction_sent_prefix path message bipPath sp dev Hparse Hser)
    as (k & _ & Hsent & Hall).
  fold r in Hsent, Hall. specialize (Hall Hrej). subst k.
  rewrite <- (framesFrom_length (length (sliceLoop message 0 [sp])) 0) in Hsent.
  fold (signFrames (sliceLoop message 0 [sp])) in Hsent.
  rewrite firstn_all in Hsent. rewrite Hsent.
  unfold signFrames at 1 2. rewrite framesFrom_length, sliceLoop_length.
  cbn [length]. rewrite Nat.sub_0_r.
  split; [reflexivity|]. split; [lia|].
  intros H600.
  rewrite <- (List.map_map frameData (@length Z)).
  unfold signFrames. rewrite framesFrom_data.
  rewrite (sliceLoop_sizes_600 message [sp] H600). cbn [map app].
  now rewrite (serializePath_length bipPath sp Hser).
Qed.

(** C8: the frames of [signTransaction] are handed to the one transport in
    the order of their chunks, frame [j] carrying chunk [j]; the trace is
    that of sending them one after the other, each exchange starting from
    the transport state the previous one left; every frame is followed by
    its reply before the next frame is sent, and at no moment are two
    exchanges pending. *)
Theorem chunks_sent_sequentially (path : string) (message : Buffer)
    (bipPath : list Z) (sp : Buffer) (dev : TState) :
  BIPPath_fromString path = Some bipPath ->
  serializePath bipPath = Ok sp ->
  let chunks := sliceLoop message 0 [sp] in
  let r := run (signTransaction exchange BIPPath_fromString path message) None dev in
  (exists k : nat,
      sentFrames (snd r) = take k (signFrames chunks)
      /\ map frameData (sentFrames (snd r)) = take k chunks
      /\ (isRejection (fst r) = false -> k = length chunks))
  /\ (exists dev' l' err,
        sendInOrder exchange (signFrames chunks) dev None = (snd r, dev', l', err))
  /\ alternates (snd r)
  /\ (maxInFlight 0 (snd r) <= 1)%nat.
Proof.
  intros Hparse Hser chunks r.
  destruct (signTransaction_sends path message bipPath sp dev Hparse Hser)
    as (dev' & l' & err & Hsend & _).
  fold chunks in Hsend. fold r in Hsend.
  pose proof (sendInOrder_alternates exchange _ _ _ _ _ _ _ Hsend) as Halt.
  split; [|split; [|split]].
  - destruct (signTransaction_sent_prefix path message bipPath sp dev Hparse Hser)
      as (k & _ & Hsent & Hall).
    fold chunks in Hsent, Hall. fold r in Hsent, Hall.
    exists k. split; [exact Hsent|]. split; [|exact Hall].
    rewrite Hsent. change (map frameData) with (fmap (M := list) frameData).
    rewrite fmap_take. change (fmap (M := list) frameData) with (map frameData).
    unfold signFrames. now rewrite framesFrom_data.
  - eauto.
  - exact Halt.
  - now apply alternates_maxInFlight.
Qed.

(** How [getAddress] ends, from the reply to its frame. *)
Lemma getAddress_outcome (path : string) (display : option bool)
    (bipPath : list Z) (sp : Buffer) (dev : TState) :
  BIPPath_fromString path = Some bipPath ->
  serializePath bipPath = Ok sp ->
  let r := run (getAddress exchange BIPPath_fromString path display) tt dev in
  match receivedReplies (snd r) !! 0%nat with
  | Some (Response resp) =>
      fst r = if strict_eq (returnCodeOf resp) SW_CANCEL
              then Throw UserRefusedAddress
              else Ok (AddressResult.mk (toHex resp) EmptyString (returnCodeOf resp))
  | _ => exists msg, fst r = Throw (TransportError msg)
  end.
Proof.
  intros Hparse Hser r. unfold r.
  rewrite (getAddress_run exchange BIPPath_fromString path display bipPath sp dev
             Hparse Hser).
  destruct (exchange _ _) as [[response|msg] dev']; cbn; eauto.
Qed.

(** How [signTransaction] ends, from the reply to the frame of its last
    chunk. *)
Lemma signTransaction_outcome (path : string) (message : Buffer)
    (bipPath : list Z) (sp : Buffer) (dev : TState) :
  BIPPath_fromString path = Some bipPath ->
  serializePath bipPath = Ok sp ->
  let r := run (signTransaction exchange BIPPath_fromString path message) None dev in
  match receivedReplies (snd r) !! (length (sliceLoop message 0 [sp]) - 1)%nat with
  | Some (Response resp) =>
      fst r = if strict_eq (returnCodeOf resp) SW_CANCEL
              then Throw UserRefusedOnDevice
              else Ok (SignResult.mk
                         (if (2 <? length resp)%nat
                          then Some (Buffer_slice resp 0 (Z.of_nat (length resp) - 2))
                          else None)
                         (returnCodeOf resp))
  | _ => exists msg, fst r = Throw (TransportError msg)
  end.
Proof.
  intros Hparse Hser r. unfold r.
  destruct (sendInOrder exchange (signFrames (sliceLoop message 0 [sp])) dev None)
    as [[[evs dev'] l'] err] eqn:Hsend.
  rewrite (signTransaction_run exchange BIPPath_fromString path message bipPath sp dev
             Hparse Hser evs dev' l' err Hsend).
  cbn [fst snd].
  assert (Hn : length (signFrames (sliceLoop message 0 [sp]))
               = length (sliceLoop message 0 [sp])).
  { unfold signFrames. apply framesFrom_length. }
  assert (H1 : (1 <= length (sliceLoop message 0 [sp]))%nat).
  { rewrite sliceLoop_length. cbn [length]. lia. }
  destruct err as [msg|].
  - destruct (sendInOrder_rejected exchange _ _ _ _ _ _ _ Hsend)
      as (k & Hk & Hlen & Hlook).
    rewrite Hn in Hk.
    destruct (receivedReplies evs !! (length (sliceLoop message 0 [sp]) - 1)%nat)
      as [[resp|m]|] eqn:Hl; eauto.
    exfalso. apply lookup_lt_Some in Hl as Hlt.
    replace (length (sliceLoop message 0 [sp]) - 1)%nat with k in Hl by lia.
    congruence.
  - destruct (sendInOrder_complete exchange _ _ _ _ _ _ Hsend)
      as (_ & _ & [[Hnil _]|(resp & -> & Hlook)]).
    + rewrite Hnil in Hn. cbn in Hn. lia.
    + rewrite Hn in Hlook. rewrite Hlook. reflexivity.
Qed.

(** C9: [getAddress] throws UserRefusedAddress exactly when the status
    decoded from its reply is 0x6986, and [signTransaction] throws
    UserRefusedOnDevice exactly when the status decoded from the reply to
    its last chunk is 0x6986; for any other reply each returns a result that
    carries the decoded status, which is the big-endian 16-bit value of the
    last two response bytes. *)
Theorem refusal_exactly_on_SW_CANCEL (path : string) (display : option bool)
    (message : Buffer) (bipPath : list Z) (sp : Buffer) (dev : TState) :
  BIPPath_fromString path = Some bipPath ->
  serializePath bipPath = Ok sp ->
  let ra := run (getAddress exchange BIPPath_fromString path display) tt dev in
  let rs := run (signTransaction exchange BIPPath_fromString path message) None dev in
  let final := (length (sliceLoop message 0 [sp]) - 1)%nat in
  (fst ra = Throw UserRefusedAddress
   <-> exists resp, receivedReplies (snd ra) !! 0%nat = Some (Response resp)
                    /\ returnCodeOf resp = Num SW_CANCEL)
  /\ (forall resp,
        receivedReplies (snd ra) !! 0%nat = Some (Response resp) ->
        returnCodeOf resp <> Num SW_CANCEL ->
        exists res, fst ra = Ok res
                    /\ AddressResult.returnCode res = returnCodeOf resp)
  /\ (fst rs = Throw UserRefusedOnDevice
      <-> exists resp, receivedReplies (snd rs) !! final = Some (Response resp)
                       /\ returnCodeOf resp = Num SW_CANCEL)
  /\ (forall resp,
        receivedReplies (snd rs) !! final = Some (Response resp) ->
        returnCodeOf resp <> Num SW_CANCEL ->
        exists res, fst rs = Ok res
                    /\ SignResult.returnCode res = returnCodeOf resp)
  /\ (forall payload hi lo,
        returnCodeOf (payload ++ [hi; lo]) = Num (hi * 0x100 + lo)).
Proof.
  intros Hparse Hser ra rs final.
  pose proof (getAddress_outcome path display bipPath sp dev Hparse Hser) as Ha.
  pose proof (signTransaction_outcome path message bipPath sp dev Hparse Hser) as Hs.
  cbv zeta in Ha, Hs. fold ra in Ha. fold rs final in Hs.
  split; [|split; [|split; [|split]]].
  - destruct (receivedReplies (snd ra) !! 0%nat) as [[resp|m]|].
    + destruct (strict_eq (returnCodeOf resp) SW_CANCEL) eqn:Heq; rewrite Ha.
      * apply strict_eq_true in Heq. split; eauto.
      * apply strict_eq_false in Heq. split; [discriminate|].
        intros (resp' & Hr & Hc). congruence.
    + destruct Ha as [msg ->]. split; [discriminate|]. intros (? & ? & _). discriminate.
    + destruct Ha as [msg ->]. split; [discriminate|]. intros (? & ? & _). discriminate.
  - intros resp Hr Hc. rewrite Hr in Ha.
    apply strict_eq_false in Hc. rewrite Hc in Ha. eauto.
  - destruct (receivedReplies (snd rs) !! final) as [[resp|m]|].
    + destruct (strict_eq (returnCodeOf resp) SW_CANCEL) eqn:Heq; rewrite Hs.
      * apply strict_eq_true in Heq. split; eauto.
      * apply strict_eq_false in Heq. split; [discriminate|].
        intros (resp' & Hr & Hc). congruence.
    + destruct Hs as [msg ->]. split; [discriminate|]. intros (? & ? & _). discriminate.
    + destruct Hs as [msg ->]. split; [discriminate|]. intros (? & ? & _). discriminate.
  - intros resp Hr Hc. rewrite Hr in Hs.
    apply strict_eq_false in Hc. rewrite Hc in Hs. eauto.
  - apply returnCodeOf_big_endian.
Qed.

End Protocol.

(** ** Path encoding *)

(** C4 (amended): a path of L unsigned 32-bit segments with L <= 127 is
    encoded in 1 + 4 * L bytes, the first byte equal to L and each segment
    written big-endian in 4 bytes, so that reading the 4-byte groups back
    gives the segments; the encoding throws exactly when L exceeds 127, the
    length being written as a signed 8-bit integer. *)
Theorem serializePath_correct (path : list Z) :
  Forall is_u32 path ->
  ((length path <= 127)%nat ->
   exists data : Buffer,
     serializePath path = Ok data
     /\ length data = (1 + 4 * length path)%nat
     /\ data !! 0%nat = Some (Z.of_nat (length path))
     /\ drop 1 data = flat_map be32 path
     /\ decodeSegments (length path) (drop 1 data) = path
     /\ Forall is_byte data)
  /\ (serializePath path = Throw RangeError <-> (127 < length path)%nat).
Proof.
  intros Hu32. split.
  - intros HL. eexists. split; [apply serializePath_ok; assumption|].
    cbn [length drop lookup list_lookup]. rewrite flat_map_be32_length.
    repeat split; try reflexivity.
    + now apply decodeSegments_be32.
    + constructor; [unfold is_byte; lia|].
      clear. induction path as [|v path IH]; cbn [flat_map]; [constructor|].
      apply Forall_app. split; [apply be32_bytes | exact IH].
  - split.
    + intros Hthrow. destruct (le_lt_dec (length path) 127) as [HL|HL]; [|exact HL].
      rewrite serializePath_ok in Hthrow by assumption. discriminate.
    + apply serializePath_too_long.
Qed.

(** ** The operations on concrete transports *)

Example addressRun_result :
  fst addressRun
  = Ok (AddressResult.mk
          "0102030405060708090a0b0c0d0e0f101112131415161718191a1b1c1d1e1f209000"
          EmptyString (Num 0x9000)).
Proof. vm_compute. reflexivity. Qed.

Example versionRun_result : fst versionRun = Ok (mkVersion "1.2.3").
Proof. vm_compute. reflexivity. Qed.

Lemma getAddress_publicKey_keeps_status_witness :
  exists res : AddressResult.t,
    fst addressRun = Ok res
    /\ AddressResult.publicKey res = (toHex mockKey ++ toHex [0x90; 0x00])%string
    /\ AddressResult.publicKey res <> toHex mockKey
    /\ AddressResult.returnCode res = Num (0x90 * 0x100 + 0x00).
Proof.
  apply (getAddress_publicKey_keeps_status replay (fixedPath hederaPath)
           "44/3030/0/0/0" (Some false) hederaPath hederaSerialized mockKey 0x90 0x00
           [Response (mockKey ++ [0x90; 0x00])] []);
    [reflexivity | reflexivity | reflexivity | unfold SW_CANCEL; lia].
Defined.

Lemma getAddress_address_empty_witness :
  fst addressRun
  = Ok (AddressResult.mk (toHex (mockKey ++ [0x90; 0x00])) EmptyString (Num 0x9000))
  /\ AddressResult.address
       (AddressResult.mk (toHex (mockKey ++ [0x90; 0x00])) EmptyString (Num 0x9000))
     = EmptyString.
Proof.
  split; [vm_compute; reflexivity|].
  apply (getAddress_address_empty replay (fixedPath hederaPath) "44/3030/0/0/0"
           (Some false) [Response (mockKey ++ [0x90; 0x00])]).
  vm_compute. reflexivity.
Defined.

(** C2, as stated, fails: for the 600-byte message and the 21-byte encoded
    path, 4 chunks are sent, where ceil((600 + 21) / 250) is 3. *)
Lemma chunk_count_is_not_ceil_of_sum :
  serializePath hederaPath = Ok hederaSerialized
  /\ isRejection (fst sign600Run) = false
  /\ map (fun frame => length (frameData frame)) (sentFrames (snd sign600Run))
     = [21; 250; 250; 100]%nat
  /\ length (sentFrames (snd sign600Run))
     <> ceilDiv (length message600 + length hederaSerialized) CHUNK_SIZE.
Proof.
  vm_compute. repeat split; try reflexivity. discriminate.
Qed.

Lemma number_of_chunks_witness :
  length (sentFrames (snd sign600Run)) = (1 + ceilDiv (length message600) CHUNK_SIZE)%nat
  /\ (1 <= length (sentFrames (snd sign600Run)))%nat
  /\ (length message600 = 600%nat ->
      map (fun frame => length (frameData frame)) (sentFrames (snd sign600Run))
      = [1 + 4 * length hederaPath; 250; 250; 100]%nat).
Proof.
  apply (number_of_chunks replay (fixedPath hederaPath) "44/3030/0/0/0" message600
           hederaPath hederaSerialized (replicate 4 (Response [0x90; 0x00])));
    [reflexivity | reflexivity | vm_compute; reflexivity].
Defined.

(** C3, as stated, fails: the single frame of a signing operation with an
    empty message carries PAYLOAD_TYPE_INIT, not PAYLOAD_TYPE_LAST. *)
Lemma single_chunk_is_not_LAST :
  length (sentFrames (snd signEmptyRun)) = 1%nat
  /\ map p1 (sentFrames (snd signEmptyRun)) = [PAYLOAD_TYPE_INIT]
  /\ ~ Forall (fun frame => p1 frame = PAYLOAD_TYPE_LAST) (sentFrames (snd signEmptyRun)).
Proof.
  split; [reflexivity|]. split; [reflexivity|].
  intros H. inversion H as [|frame rest Hp1 _]. discriminate Hp1.
Qed.

Lemma single_chunk_is_INIT_witness :
  length (sliceLoop [] 0 [hederaSerialized]) = 1%nat
  /\ sentFrames (snd signEmptyRun)
     = [mkSend CLA INS.SIGN PAYLOAD_TYPE_INIT 0 (Some hederaSerialized)
          (Some [SW_OK; SW_CANCEL])].
Proof.
  split; [reflexivity|].
  apply (single_chunk_is_INIT replay (fixedPath hederaPath) "44/3030/0/0/0" []
           hederaPath hederaSerialized [Response (mockKey ++ [0x90; 0x00])]);
    reflexivity.
Defined.

(** C4, as stated, fails: a path of 128 segments, within 255, is not
    encoded, [writeInt8] throwing on its length. *)
Lemma serializePath_128_throws :
  (length path128 <= 255)%nat
  /\ Forall is_u32 path128
  /\ serializePath path128 = Throw RangeError.
Proof.
  split; [unfold path128; rewrite length_replicate; lia|].
  split; [apply Forall_replicate; unfold is_u32; lia|].
  reflexivity.
Qed.

Lemma serializePath_correct_witness :
  Forall is_u32 hederaPath
  /\ exists data : Buffer,
      serializePath hederaPath = Ok data
      /\ length data = (1 + 4 * length hederaPath)%nat
      /\ data !! 0%nat = Some (Z.of_nat (length hederaPath))
      /\ drop 1 data = flat_map be32 hederaPath
      /\ decodeSegments (length hederaPath) (drop 1 data) = hederaPath
      /\ Forall is_byte data.
Proof.
  assert (H : Forall is_u32 hederaPath)
    by (unfold hederaPath, is_u32; repeat constructor; lia).
  split; [exact H|].
  apply (proj1 (serializePath_correct hederaPath H)). unfold hederaPath. cbn. lia.
Defined.

(** C5, as stated, fails: with a path of 63 segments the first chunk has 253
    bytes of data. *)
Lemma path_chunk_exceeds_250 :
  (length path63 <= 255)%nat
  /\ map (fun frame => length (frameData frame)) (sentFrames (snd sign63Run)) = [253%nat]
  /\ ~ Forall (fun frame => (length (frameData frame) <= CHUNK_SIZE)%nat)
        (sentFrames (snd sign63Run)).
Proof.
  assert (Hsizes : map (fun frame => length (frameData frame))
                     (sentFrames (snd sign63Run)) = [253%nat])
    by (vm_compute; reflexivity).
  split; [unfold path63; rewrite length_replicate; lia|].
  split; [exact Hsizes|].
  intros H.
  apply (proj2 (List.Forall_map (fun frame => length (frameData frame))
                  (fun n => (n <= CHUNK_SIZE)%nat) _)) in H.
  rewrite Hsizes in H. inversion H as [|n rest Hlen _].
  unfold CHUNK_SIZE in Hlen. lia.
Qed.

Lemma chunks_at_most_250_witness :
  Forall (fun frame => (length (frameData frame) <= CHUNK_SIZE)%nat)
    (sentFrames (snd sign600Run)).
Proof.
  apply (chunks_at_most_250 replay (fixedPath hederaPath) "44/3030/0/0/0" message600
           hederaPath (replicate 4 (Response [0x90; 0x00])));
    [reflexivity | unfold hederaPath; cbn; lia].
Defined.

(** C6, as stated, fails: the send of [getAppConfiguration] passes no status
    list. *)
Lemma getAppConfiguration_passes_no_statusList :
  ~ Forall acceptsBoth (sentFrames (snd versionRun)).
Proof.
  unfold versionRun. rewrite getAppConfiguration_sent.
  intros H. inversion H as [|frame rest [l [Hl _]] _]. discriminate Hl.
Qed.

Example sign600Run_tags :
  map p1 (sentFrames (snd sign600Run))
  = [PAYLOAD_TYPE_INIT; PAYLOAD_TYPE_ADD; PAYLOAD_TYPE_ADD; PAYLOAD_TYPE_LAST].
Proof. vm_compute. reflexivity. Qed.

Lemma sent_chunks_concat_witness :
  concat (map frameData (sentFrames (snd sign600Run))) = hederaSerialized ++ message600.
Proof.
  pose proof (sent_chunks_concat replay (fixedPath hederaPath) "44/3030/0/0/0"
                message600 hederaPath hederaSerialized
                (replicate 4 (Response [0x90; 0x00])) eq_refl eq_refl) as H.
  cbv zeta in H. destruct H as [_ H]. apply H. vm_compute. reflexivity.
Defined.

Lemma chunks_sent_sequentially_witness :
  alternates (snd sign600Run) /\ (maxInFlight 0 (snd sign600Run) <= 1)%nat.
Proof.
  pose proof (chunks_sent_sequentially replay (fixedPath hederaPath) "44/3030/0/0/0"
                message600 hederaPath hederaSerialized
                (replicate 4 (Response [0x90; 0x00])) eq_refl eq_refl) as H.
  cbv zeta in H. destruct H as (_ & _ & Halt & Hmax). split; [exact Halt | exact Hmax].
Defined.

Lemma refusal_exactly_on_SW_CANCEL_witness :
  fst refusedAddressRun = Throw UserRefusedAddress
  /\ fst refusedSignRun = Throw UserRefusedOnDevice.
Proof.
  pose proof (refusal_exactly_on_SW_CANCEL replay (fixedPath hederaPath) "44/3030/0/0/0"
                (Some false) [] hederaPath hederaSerialized [Response [0x69; 0x86]]
                eq_refl eq_refl) as H.
  cbv zeta in H. destruct H as (Ha & _ & Hs & _).
  split; [apply Ha | apply Hs]; exists [0x69; 0x86]; split; reflexivity.
Defined.

(** * Further properties of the module *)

(** ** [serializePath]: when it succeeds, and what it throws *)

Lemma serializePath_forEach_error (path : list Z) :
  forall (index : nat) (data : Buffer) (e : Error),
    serializePath_forEach path index data = Throw e -> e = RangeError.
Proof.
  induction path as [|v path IH]; intros index data e H; [discriminate|].
  cbn [serializePath_forEach] in H. unfold writeUInt32BE in H at 1.
  destruct ((0 <=? v) && (v <=? 4294967295)
            && (1 + index * 4 + 4 <=? length data)%nat).
  - cbn [rbind] in H. eauto.
  - cbn [rbind] in H. congruence.
Qed.

Lemma serializePath_error (path : list Z) (e : Error) :
  serializePath path = Throw e -> e = RangeError.
Proof.
  unfold serializePath, writeInt8.
  destruct ((-128 <=? Z.of_nat (length path)) && (Z.of_nat (length path) <=? 127)
            && (0 <? length (Buffer_alloc (1 + length path * 4)))%nat).
  - cbn [rbind]. apply serializePath_forEach_error.
  - cbn [rbind]. congruence.
Qed.


(** X2: [serializePath] is injective: two paths with the same serialization
    are the same path. *)
Theorem serializePath_injective (path1 path2 : list Z) (data : Buffer) :
  serializePath path1 = Ok data ->
  serializePath path2 = Ok data ->
  path1 = path2.
Proof.
  intros H1 H2.
  apply serializePath_inv in H1 as (_ & Hu1 & E1).
  apply serializePath_inv in H2 as (_ & Hu2 & E2).
  rewrite E1 in E2. inversion E2 as [[HL Hflat]].
  apply Nat2Z.inj in HL.
  rewrite <- (decodeSegments_be32 path1 Hu1), <- (decodeSegments_be32 path2 Hu2).
  now rewrite HL, Hflat.
Qed.

Lemma serializePath_injective_witness : hederaPath = [44; 3030; 0; 0; 0].
Proof.
  apply (serializePath_injective hederaPath [44; 3030; 0; 0; 0] hederaSerialized);
    reflexivity.
Defined.

(** ** Status decoding on every response *)

Lemma last_two_split (resp : Buffer) :
  (2 <= length resp)%nat -> exists payload hi lo, resp = payload ++ [hi; lo].
Proof.
  intros H. exists (take (length resp - 2) resp).
  destruct (drop (length resp - 2) resp) as [|hi [|lo [|x rest]]] eqn:Hd;
    apply (f_equal length) in Hd as Hl; rewrite length_drop in Hl; cbn in Hl;
    try lia.
  exists hi, lo. rewrite <- Hd. symmetry. apply take_drop.
Qed.

(** X16: the decoded status is NaN exactly for the responses of fewer than
    two bytes; no such response is taken for a user refusal. *)
Theorem returnCodeOf_NaN_iff (resp : Buffer) :
  (returnCodeOf resp = NaN <-> (length resp < 2)%nat)
  /\ ((length resp < 2)%nat -> strict_eq (returnCodeOf resp) SW_CANCEL = false).
Proof.
  assert (Hshort : (length resp < 2)%nat -> returnCodeOf resp = NaN).
  { destruct resp as [|x [|y rest]]; cbn [length]; intros H; try lia; reflexivity. }
  split; [split|].
  - intros Hnan. destruct (le_lt_dec 2 (length resp)) as [H|H]; [|exact H].
    destruct (last_two_split resp H) as (payload & hi & lo & ->).
    rewrite returnCodeOf_big_endian in Hnan. discriminate.
  - exact Hshort.
  - intros H. now rewrite (Hshort H).
Qed.

(** X17: on a response of at least two bytes the decoded status is a number
    between 0 and 0xFFFF, the big-endian value of its last two bytes. *)
Theorem returnCodeOf_16bit (resp : Buffer) :
  Forall is_byte resp ->
  (2 <= length resp)%nat ->
  exists payload hi lo,
    resp = payload ++ [hi; lo]
    /\ returnCodeOf resp = Num (hi * 0x100 + lo)
    /\ 0 <= hi * 0x100 + lo <= 0xFFFF.
Proof.
  intros Hbytes Hlen.
  destruct (last_two_split resp Hlen) as (payload & hi & lo & ->).
  exists payload, hi, lo. split; [reflexivity|].
  split; [apply returnCodeOf_big_endian|].
  apply Forall_app in Hbytes as [_ Hlast].
  inversion Hlast as [|? ? Hhi Hrest]; subst.
  inversion Hrest as [|? ? Hlo _]; subst.
  unfold is_byte in Hhi, Hlo. lia.
Qed.

Lemma returnCodeOf_16bit_witness :
  exists payload hi lo,
    mockKey ++ [0x69; 0x86] = payload ++ [hi; lo]
    /\ returnCodeOf (mockKey ++ [0x69; 0x86]) = Num (hi * 0x100 + lo)
    /\ 0 <= hi * 0x100 + lo <= 0xFFFF.
Proof.
  apply (returnCodeOf_16bit (mockKey ++ [0x69; 0x86])).
  - unfold mockKey, is_byte. cbn. repeat constructor; lia.
  - cbn. lia.
Defined.

(** ** [toHex] loses nothing *)

Lemma unhexDigit_hexDigit (d : Z) :
  0 <= d < 16 -> unhexDigit (hexDigit d) = Some d.
Proof.
  intros H.
  assert (Hd : d = 0 \/ d = 1 \/ d = 2 \/ d = 3 \/ d = 4 \/ d = 5 \/ d = 6 \/ d = 7
               \/ d = 8 \/ d = 9 \/ d = 10 \/ d = 11 \/ d = 12 \/ d = 13 \/ d = 14
               \/ d = 15) by lia.
  repeat (destruct Hd as [->|Hd]; [reflexivity|]). subst d. reflexivity.
Qed.

(** X19: reading back the hexadecimal text of a buffer of bytes gives the
    buffer: [toHex] is injective on byte buffers, and its text has two digits
    per byte. *)
Theorem toHex_roundtrip (buf : Buffer) :
  Forall is_byte buf ->
  fromHex (toHex buf) = Some buf /\ String.length (toHex buf) = (2 * length buf)%nat.
Proof.
  intros Hbytes. split; [|apply toHex_length].
  induction Hbytes as [|b buf Hb _ IH]; [reflexivity|].
  cbn [toHex fromHex]. unfold is_byte in Hb.
  assert (Hhi : Z.shiftr b 4 = b / 16) by (rewrite Z.shiftr_div_pow2 by lia; reflexivity).
  assert (Hlo : Z.land b 0xf = b mod 16)
    by (change 0xf with (Z.ones 4); rewrite Z.land_ones by lia; reflexivity).
  rewrite Hhi, Hlo.
  rewrite !unhexDigit_hexDigit, IH.
  - f_equal. f_equal. Z.div_mod_to_equations. lia.
  - apply Z.mod_pos_bound. lia.
  - Z.div_mod_to_equations. lia.
Qed.

Lemma toHex_roundtrip_witness :
  fromHex (toHex (mockKey ++ [0x90; 0x00])) = Some (mockKey ++ [0x90; 0x00])
  /\ String.length (toHex (mockKey ++ [0x90; 0x00]))
     = (2 * length (mockKey ++ [0x90; 0x00]%Z))%nat.
Proof.
  apply (toHex_roundtrip (mockKey ++ [0x90; 0x00])).
  unfold mockKey, is_byte. cbn. repeat constructor; lia.
Defined.

(** ** [foreach] on any callback *)

Section Foreach.

Context {TState L T A : Type}.
Variable callback : T -> nat -> Async TState L A.

(** Iterating over a concatenation is iterating over its first part, then
    over the second from the index and with the results reached. *)
Lemma iterate_app (a : list T) :
  forall (b : list T) (index : nat) (result : list A) (l : L) (w : World TState),
    iterate callback index (a ++ b) result l w
    = bind (iterate callback index a result)
        (fun r => iterate callback (index + length a) b r) l w.
Proof.
  induction a as [|t a IH]; intros b index result l w.
  - cbn [app iterate length]. unfold bind, ret. now rewrite Nat.add_0_r.
  - cbn [app iterate length]. unfold bind.
    destruct (callback t index l w) as [[[x|e] l1] w1]; [|reflexivity].
    rewrite IH. unfold bind.
    now replace (S index + length a)%nat with (index + S (length a))%nat by lia.
Qed.

Lemma iterate_length (rest : list T) :
  forall (index : nat) (result res : list A) (l l' : L) (w w' : World TState),
    iterate callback index rest result l w = (Ok res, l', w') ->
    length res = (length result + length rest)%nat.
Proof.
  induction rest as [|t rest IH]; intros index result res l l' w w' H.
  - cbn in H. inversion H. cbn. lia.
  - cbn [iterate] in H. unfold bind in H.
    destruct (callback t index l w) as [[[x|e] l1] w1]; [|discriminate].
    apply IH in H. rewrite length_app in H. cbn [length] in *. lia.
Qed.

(** X3: [foreach] over a concatenation [a ++ b] is [foreach] over [a]
    followed, when it succeeds, by the iteration over [b] that starts at
    index [length a] with the results of [a]; an exception in [a] ends it. *)
Theorem foreach_concat (a b : list T) (l : L) (w : World TState) :
  foreach (a ++ b) callback l w
  = match foreach a callback l w with
    | (Ok results, l', w') => iterate callback (length a) b results l' w'
    | (Throw e, l', w') => (Throw e, l', w')
    end.
Proof.
  unfold foreach. rewrite iterate_app. reflexivity.
Qed.

(** X4: when [foreach] succeeds it returns one result per element of the
    array. *)
Theorem foreach_result_length (arr : list T) (l l' : L) (w w' : World TState)
    (results : list A) :
  foreach arr callback l w = (Ok results, l', w') ->
  length results = length arr.
Proof.
  unfold foreach. intros H. apply iterate_length in H. exact H.
Qed.

(** X6: [foreach] stops at the first exception: when it throws on [a], it
    throws the same exception, in the same state, on every array that starts
    with [a]; the callback is not run on the elements that follow. *)
Theorem foreach_stops_at_first_throw (a : list T) (l l' : L) (w w' : World TState)
    (e : Error) :
  foreach a callback l w = (Throw e, l', w') ->
  forall b : list T, foreach (a ++ b) callback l w = (Throw e, l', w').
Proof.
  intros H b. unfold foreach in *. rewrite iterate_app. unfold bind. now rewrite H.
Qed.

End Foreach.

Lemma iterate_pure {TState L T A : Type} (f : nat -> T -> A) (rest : list T) :
  forall (index : nat) (result : list A) (l : L) (w : World TState),
    iterate (fun t n => ret (f n t)) index rest result l w
    = (Ok (result ++ imap (fun k => f (index + k)%nat) rest), l, w).
Proof.
  induction rest as [|t rest IH]; intros index result l w.
  - cbn. now rewrite app_nil_r.
  - cbn [iterate]. unfold bind at 1. unfold ret at 1.
    rewrite IH, imap_cons, <- app_assoc. cbn [app]. rewrite Nat.add_0_r.
    rewrite (imap_ext (fun k => f (S index + k)%nat)
               ((fun k => f (index + k)%nat) ∘ S) rest); [reflexivity|].
    intros i x _. cbn. f_equal. lia.
Qed.

(** X5: with a callback that only computes a value from the element and its
    index, [foreach] returns the values in the order of the array, each
    computed with the index of its element, and changes nothing. *)
Theorem foreach_pure_callbacks {TState L T A : Type} (f : nat -> T -> A)
    (arr : list T) (l : L) (w : World TState) :
  foreach arr (fun t n => ret (f n t)) l w = (Ok (imap f arr), l, w).
Proof.
  unfold foreach. rewrite iterate_pure. cbn [app]. do 3 f_equal.
Qed.

Lemma foreach_result_length_witness :
  length [10; 21; 32] = length [10; 20; 30].
Proof.
  apply (foreach_result_length (fun t n => ret (t + Z.of_nat n)) [10; 20; 30]
           tt tt idleWorld idleWorld [10; 21; 32]).
  reflexivity.
Defined.

Lemma foreach_stops_at_first_throw_witness :
  foreach ([1; -1] ++ [5])
    (fun t (n : nat) => if t <? 0 then throw TypeError else ret t) tt idleWorld
  = (Throw TypeError, tt, idleWorld).
Proof.
  apply (foreach_stops_at_first_throw
           (fun t (n : nat) => if t <? 0 then throw TypeError else ret t)
           [1; -1] tt tt idleWorld idleWorld TypeError).
  reflexivity.
Defined.

(** ** The chunks of a message *)

Lemma ceilDiv_lt (m j : nat) :
  (j < ceilDiv m CHUNK_SIZE)%nat <-> (CHUNK_SIZE * j < m)%nat.
Proof.
  unfold ceilDiv, CHUNK_SIZE. split; intros H.
  - destruct (le_lt_dec m (250 * j)) as [Hle|Hlt]; [exfalso|exact Hlt].
    assert (((m + 250 - 1) / 250 < S j)%nat)
      by (apply Nat.Div0.div_lt_upper_bound; lia).
    lia.
  - assert ((S j <= (m + 250 - 1) / 250)%nat)
      by (apply Nat.div_le_lower_bound; lia).
    lia.
Qed.

(** The loop pushes the successive slices of 250 bytes of the buffer. *)
Lemma sliceLoop_explicit (buffer : Buffer) (chunks : list Buffer) :
  sliceLoop buffer 0 chunks
  = chunks ++ map (fun j => take CHUNK_SIZE (drop (CHUNK_SIZE * j) buffer))
                (seq 0 (ceilDiv (length buffer) CHUNK_SIZE)).
Proof.
  enough (H : forall (q : nat), 0%nat = (CHUNK_SIZE * q)%nat ->
            sliceLoop buffer 0 chunks
            = chunks ++ map (fun j => take CHUNK_SIZE (drop (CHUNK_SIZE * j) buffer))
                          (seq q (ceilDiv (length buffer - 0) CHUNK_SIZE))).
  { rewrite (H 0%nat) by (unfold CHUNK_SIZE; lia). now rewrite Nat.sub_0_r. }
  apply (sliceLoop_induction buffer
           (fun i chunks out => forall q : nat, i = (CHUNK_SIZE * q)%nat ->
              out = chunks ++ map (fun j => take CHUNK_SIZE (drop (CHUNK_SIZE * j) buffer))
                              (seq q (ceilDiv (length buffer - i) CHUNK_SIZE)))).
  - intros i cs Hi q _. replace (length buffer - i)%nat with 0%nat by lia.
    cbn. now rewrite app_nil_r.
  - intros i cs out Hi IH q Hq.
    rewrite (IH (S q)) by lia.
    rewrite (ceilDiv_step (length buffer - i)) by lia.
    replace (length buffer - (i + CHUNK_SIZE))%nat
      with (length buffer - i - CHUNK_SIZE)%nat by lia.
    cbn [seq map]. rewrite <- app_assoc, <- Hq. reflexivity.
Qed.

(** X12: in the chunk array of [signTransaction], every chunk after the
    serialized path (a slice of the message) has between 1 and 250 bytes, and
    every such chunk but the last has exactly 250: no empty chunk is made. *)
Theorem message_chunk_sizes (message sp chunk : Buffer) (j : nat) :
  sliceLoop message 0 [sp] !! S j = Some chunk ->
  (1 <= length chunk <= CHUNK_SIZE)%nat
  /\ ((S (S j) < length (sliceLoop message 0 [sp]))%nat -> length chunk = CHUNK_SIZE).
Proof.
  rewrite sliceLoop_length, sliceLoop_explicit. cbn [app length].
  change (S j) with (1 + j)%nat at 1. cbn [lookup list_lookup Nat.add].
  intros H. apply list_lookup_fmap_Some in H as (k & Hc & Hk).
  apply lookup_seq in Hk as [-> Hj]. cbn [Nat.add] in Hc. subst chunk.
  apply ceilDiv_lt in Hj. rewrite length_take, length_drop.
  split; [unfold CHUNK_SIZE in *; lia|].
  rewrite Nat.sub_0_r. intros Hnext.
  assert (Hj' : (S j < ceilDiv (length message) CHUNK_SIZE)%nat) by lia.
  apply ceilDiv_lt in Hj'. unfold CHUNK_SIZE in *. lia.
Qed.

Lemma message_chunk_sizes_witness :
  (1 <= length (replicate 100 0x2a%Z) <= CHUNK_SIZE)%nat
  /\ ((S (S 2) < length (sliceLoop message600 0 [hederaSerialized]))%nat ->
      length (replicate 100 0x2a%Z) = CHUNK_SIZE).
Proof.
  apply (message_chunk_sizes message600 hederaSerialized (replicate 100 0x2a) 2).
  vm_compute. reflexivity.
Defined.

(** ** More on the operations *)

Lemma slice_payload (payload : Buffer) (hi lo : Z) :
  Buffer_slice (payload ++ [hi; lo]) 0 (Z.of_nat (length (payload ++ [hi; lo])) - 2)
  = payload.
Proof.
  unfold Buffer_slice, clampIndex. rewrite length_app. cbn [length].
  replace (0 <? 0) with false by reflexivity.
  replace (Z.of_nat (length payload + 2) - 2 <? 0) with false
    by (symmetry; apply Z.ltb_ge; lia).
  replace (Z.to_nat (Z.of_nat (length payload + 2) - 2)) with (length payload) by lia.
  rewrite Nat.min_l by lia. cbn [Z.to_nat Nat.min drop].
  rewrite Nat.sub_0_r. apply take_app_length.
Qed.

Lemma framesFrom_tags (n : nat) (rest : list Buffer) :
  forall j : nat,
    (1 <= j)%nat -> (j + length rest = n)%nat -> rest <> [] ->
    map p1 (framesFrom n j rest)
    = replicate (length rest - 1) PAYLOAD_TYPE_ADD ++ [PAYLOAD_TYPE_LAST].
Proof.
  induction rest as [|c rest IH]; intros j Hj Hn Hne; [congruence|].
  cbn [framesFrom map signFrame p1 length] in *. unfold chunkType.
  replace (j =? 0)%nat with false by (symmetry; apply Nat.eqb_neq; lia).
  destruct rest as [|c' rest].
  - cbn [length] in Hn.
    replace (j + 1 =? n)%nat with true by (symmetry; apply Nat.eqb_eq; lia).
    reflexivity.
  - cbn [length] in Hn.
    replace (j + 1 =? n)%nat with false by (symmetry; apply Nat.eqb_neq; lia).
    rewrite (IH (S j)) by (cbn [length]; (lia || congruence)).
    cbn [length].
    replace (S (length rest) - 1)%nat with (length rest) by lia.
    replace (S (S (length rest)) - 1)%nat with (S (length rest)) by lia.
    reflexivity.
Qed.

Lemma framesFrom_headers (n j : nat) (rest : list Buffer) :
  Forall (fun frame => cla frame = 0xe0 /\ ins frame = 0x04 /\ p2 frame = 0
                       /\ exists chunk, data frame = Some chunk)
    (framesFrom n j rest).
Proof.
  revert j. induction rest as [|c rest IH]; intros j; cbn [framesFrom];
    constructor; [cbn; eauto | apply IH].
Qed.

(** The replies before a rejection are responses, and no frame follows the
    rejected one. *)
Lemma sendInOrder_rejected_shape {TState : Type}
    (exchange : SendArgs -> TState -> Reply * TState) (frames : list SendArgs) :
  forall dev l evs dev' l' msg,
    sendInOrder exchange frames dev l = (evs, dev', l', Some msg) ->
    exists responses : list Buffer,
      receivedReplies evs = map Response responses ++ [Rejected msg]
      /\ (length responses < length frames)%nat
      /\ sentFrames evs = take (S (length responses)) frames.
Proof.
  induction frames as [|f frames IH]; intros dev l evs dev' l' msg H.
  - inversion H.
  - cbn [sendInOrder] in H.
    destruct (exchange f dev) as [[bytes|m] dev1].
    + destruct (sendInOrder exchange frames dev1 (Some bytes))
        as [[[evs1 dev2] l2] err] eqn:Hrec.
      inversion H; subst.
      destruct (IH _ _ _ _ _ _ Hrec) as (responses & Hr & Hlen & Hs).
      exists (bytes :: responses). cbn. rewrite Hr, Hs. repeat split. lia.
    + inversion H; subst. exists []. cbn. rewrite take_0. repeat split. lia.
Qed.

Section MoreOperations.

Context {TState : Type}.
Variable exchange : SendArgs -> TState -> Reply * TState.
Variable BIPPath_fromString : string -> option (list Z).

(** X7: [getAddress] sends nothing when the path does not parse (it throws
    what the parser throws) or does not serialize (it throws a RangeError);
    otherwise it sends exactly one frame, with class 0xE0, instruction 0x02,
    parameter 1 equal to 1 when [display] is true and 0 otherwise, parameter
    2 equal to 0, the serialized path as data, and receives one reply. *)
Theorem getAddress_frames (path : string) (display : option bool) (dev : TState) :
  match BIPPath_fromString path with
  | None =>
      run (getAddress exchange BIPPath_fromString path display) tt dev
      = (Throw PathError, [])
  | Some bipPath =>
      match serializePath bipPath with
      | Throw _ =>
          run (getAddress exchange BIPPath_fromString path display) tt dev
          = (Throw RangeError, [])
      | Ok sp =>
          sentFrames (snd (run (getAddress exchange BIPPath_fromString path display)
                             tt dev))
          = [mkSend 0xe0 0x02 (match display with Some true => 1 | _ => 0 end) 0
               (Some sp) (Some [SW_OK; SW_CANCEL])]
          /\ length (receivedReplies
                       (snd (run (getAddress exchange BIPPath_fromString path display)
                               tt dev))) = 1%nat
      end
  end.
Proof.
  destruct (BIPPath_fromString path) as [bipPath|] eqn:Hparse.
  - destruct (serializePath bipPath) as [sp|e] eqn:Hser.
    + rewrite (getAddress_run exchange BIPPath_fromString path display bipPath sp dev
                 Hparse Hser).
      destruct (exchange _ _) as [[response|msg] dev']; split; reflexivity.
    + rewrite (serializePath_error bipPath e Hser) in Hser.
      apply (getAddress_serialize_fail exchange BIPPath_fromString path display
               bipPath RangeError dev Hparse Hser).
  - apply (getAddress_parse_fail exchange BIPPath_fromString path display dev Hparse).
Qed.

(** X18: a reply of fewer than two bytes is never taken for a refusal:
    [getAddress] returns a result whose [returnCode] is NaN. *)
Theorem getAddress_short_reply (path : string) (display : option bool)
    (bipPath : list Z) (sp resp : Buffer) (dev dev' : TState) :
  BIPPath_fromString path = Some bipPath ->
  serializePath bipPath = Ok sp ->
  exchange (addressFrame display sp) dev = (Response resp, dev') ->
  (length resp < 2)%nat ->
  fst (run (getAddress exchange BIPPath_fromString path display) tt dev)
  = Ok (AddressResult.mk (toHex resp) EmptyString NaN).
Proof.
  intros Hparse Hser Hex Hlen.
  rewrite (getAddress_run exchange BIPPath_fromString path display bipPath sp dev
             Hparse Hser), Hex.
  destruct resp as [|x [|y rest]]; cbn [length] in Hlen; try lia; reflexivity.
Qed.

(** X8: when the parsed path has more than 127 segments, or a segment that
    is not an unsigned 32-bit value, [signTransaction] throws a RangeError
    and sends nothing, whatever the message. *)
Theorem signTransaction_invalid_path (path : string) (message : Buffer)
    (bipPath : list Z) (dev : TState) :
  BIPPath_fromString path = Some bipPath ->
  (127 < length bipPath)%nat \/ ~ Forall is_u32 bipPath ->
  run (signTransaction exchange BIPPath_fromString path message) None dev
  = (Throw RangeError, []).
Proof.
  intros Hparse Hbad.
  destruct (serializePath bipPath) as [sp|e] eqn:Hser.
  - apply serializePath_inv in Hser as (HL & Hu & _).
    destruct Hbad as [Hbad|Hbad]; [lia|contradiction].
  - rewrite (serializePath_error bipPath e Hser) in Hser.
    apply (signTransaction_serialize_fail exchange BIPPath_fromString path message
             bipPath RangeError dev Hparse Hser).
Qed.

(** X10: every frame that [signTransaction] sends has class 0xE0,
    instruction 0x04, parameter 2 equal to 0, and carries data. *)
Theorem signTransaction_frame_headers (path : string) (message : Buffer)
    (dev : TState) :
  Forall (fun frame => cla frame = 0xe0 /\ ins frame = 0x04 /\ p2 frame = 0
                       /\ exists chunk, data frame = Some chunk)
    (sentFrames (snd (run (signTransaction exchange BIPPath_fromString path message)
                        None dev))).
Proof.
  destruct (BIPPath_fromString path) as [bipPath|] eqn:Hparse.
  - destruct (serializePath bipPath) as [sp|e] eqn:Hser.
    + destruct (signTransaction_sent_prefix exchange BIPPath_fromString path message
                  bipPath sp dev Hparse Hser) as (k & _ & -> & _).
      apply Forall_take. apply framesFrom_headers.
    + rewrite (signTransaction_serialize_fail exchange BIPPath_fromString path message
                 bipPath e dev Hparse Hser). constructor.
  - rewrite (signTransaction_parse_fail exchange BIPPath_fromString path message dev
               Hparse). constructor.
Qed.

(** All the frames are sent when the transport rejects none. *)
Lemma signTransaction_sent_all (path : string) (message : Buffer)
    (bipPath : list Z) (sp : Buffer) (dev : TState) :
  BIPPath_fromString path = Some bipPath ->
  serializePath bipPath = Ok sp ->
  isRejection (fst (run (signTransaction exchange BIPPath_fromString path message)
                      None dev)) = false ->
  sentFrames (snd (run (signTransaction exchange BIPPath_fromString path message)
                     None dev))
  = signFrames (sliceLoop message 0 [sp]).
Proof.
  intros Hparse Hser Hrej.
  destruct (signTransaction_sent_prefix exchange BIPPath_fromString path message
              bipPath sp dev Hparse Hser) as (k & _ & -> & Hall).
  rewrite (Hall Hrej).
  rewrite <- (framesFrom_length (length (sliceLoop message 0 [sp])) 0) at 1.
  apply firstn_all.
Qed.

(** X9: for a message that is not empty, when the transport rejects no frame,
    the chunk-type tags of the frames sent are, in order, PAYLOAD_TYPE_INIT
    for the frame of the path, PAYLOAD_TYPE_ADD for every message chunk but
    the last, and PAYLOAD_TYPE_LAST for the last message chunk. *)
Theorem signTransaction_tags (path : string) (message : Buffer)
    (bipPath : list Z) (sp : Buffer) (dev : TState) :
  BIPPath_fromString path = Some bipPath ->
  serializePath bipPath = Ok sp ->
  message <> [] ->
  isRejection (fst (run (signTransaction exchange BIPPath_fromString path message)
                      None dev)) = false ->
  map p1 (sentFrames (snd (run (signTransaction exchange BIPPath_fromString path message)
                             None dev)))
  = PAYLOAD_TYPE_INIT
    :: replicate (ceilDiv (length message) CHUNK_SIZE - 1) PAYLOAD_TYPE_ADD
    ++ [PAYLOAD_TYPE_LAST].
Proof.
  intros Hparse Hser Hne Hrej.
  rewrite (signTransaction_sent_all path message bipPath sp dev Hparse Hser Hrej).
  unfold signFrames. rewrite (sliceLoop_prefix message 0 [sp]).
  cbn [app framesFrom map signFrame p1 length]. f_equal.
  assert (Hlen : length (sliceLoop message 0 [])
                 = ceilDiv (length message) CHUNK_SIZE).
  { rewrite sliceLoop_length. cbn [length]. now rewrite Nat.sub_0_r. }
  assert (Hpos : (0 < ceilDiv (length message) CHUNK_SIZE)%nat).
  { apply ceilDiv_lt. destruct message; [congruence|]. cbn [length]. lia. }
  rewrite framesFrom_tags; [now rewrite Hlen | lia | reflexivity |].
  intros Hnil. rewrite Hnil in Hlen. cbn [length] in Hlen. lia.
Qed.

(** X11: when the transport rejects no frame, the data of the frames sent
    are, in order, the serialized path, then the successive slices of 250
    bytes of the message, ceil(M / 250) of them for a message of M bytes. *)
Theorem signTransaction_chunk_contents (path : string) (message : Buffer)
    (bipPath : list Z) (sp : Buffer) (dev : TState) :
  BIPPath_fromString path = Some bipPath ->
  serializePath bipPath = Ok sp ->
  isRejection (fst (run (signTransaction exchange BIPPath_fromString path message)
                      None dev)) = false ->
  map frameData
    (sentFrames (snd (run (signTransaction exchange BIPPath_fromString path message)
                        None dev)))
  = sp :: map (fun j => take 250 (drop (250 * j) message))
            (seq 0 (ceilDiv (length message) 250)).
Proof.
  intros Hparse Hser Hrej.
  rewrite (signTransaction_sent_all path message bipPath sp dev Hparse Hser Hrej).
  unfold signFrames. rewrite framesFrom_data. apply sliceLoop_explicit.
Qed.

(** X13: when the reply to the last chunk is [payload] followed by a status
    word other than 0x6986, [signTransaction] returns the decoded status and,
    as signature, [payload], or null when [payload] is empty; the replies to
    the chunks before play no part. *)
Theorem signTransaction_signature (path : string) (message : Buffer)
    (bipPath : list Z) (sp payload : Buffer) (hi lo : Z) (dev : TState) :
  BIPPath_fromString path = Some bipPath ->
  serializePath bipPath = Ok sp ->
  receivedReplies
    (snd (run (signTransaction exchange BIPPath_fromString path message) None dev))
    !! (length (sliceLoop message 0 [sp]) - 1)%nat
  = Some (Response (payload ++ [hi; lo])) ->
  hi * 0x100 + lo <> SW_CANCEL ->
  fst (run (signTransaction exchange BIPPath_fromString path message) None dev)
  = Ok (SignResult.mk (match payload with [] => None | _ => Some payload end)
          (Num (hi * 0x100 + lo))).
Proof.
  intros Hparse Hser Hlast Hsw.
  pose proof (signTransaction_outcome exchange BIPPath_fromString path message
                bipPath sp dev Hparse Hser) as H.
  cbv zeta in H. rewrite Hlast in H. rewrite H.
  rewrite returnCodeOf_big_endian, slice_payload.
  replace (strict_eq (Num (hi * 0x100 + lo)) SW_CANCEL) with false
    by (symmetry; apply strict_eq_false; congruence).
  f_equal. f_equal. rewrite length_app. cbn [length].
  destruct payload as [|b payload]; [reflexivity|].
  cbn [length]. replace (2 <? S (length payload) + 2)%nat with true
    by (symmetry; apply Nat.ltb_lt; lia).
  reflexivity.
Qed.

(** X14: when the transport rejects a frame, [signTransaction] throws the
    error of that rejection; the replies before it are responses, the
    rejected frame is the last one sent, and the chunks after it are never
    sent. *)
Theorem signTransaction_rejection (path : string) (message : Buffer)
    (bipPath : list Z) (sp : Buffer) (dev : TState) :
  BIPPath_fromString path = Some bipPath ->
  serializePath bipPath = Ok sp ->
  isRejection (fst (run (signTransaction exchange BIPPath_fromString path message)
                      None dev)) = true ->
  exists (msg : string) (responses : list Buffer),
    fst (run (signTransaction exchange BIPPath_fromString path message) None dev)
    = Throw (TransportError msg)
    /\ receivedReplies
         (snd (run (signTransaction exchange BIPPath_fromString path message) None dev))
       = map Response responses ++ [Rejected msg]
    /\ (length responses < length (sliceLoop message 0 [sp]))%nat
    /\ sentFrames
         (snd (run (signTransaction exchange BIPPath_fromString path message) None dev))
       = take (S (length responses)) (signFrames (sliceLoop message 0 [sp])).
Proof.
  intros Hparse Hser.
  destruct (sendInOrder exchange (signFrames (sliceLoop message 0 [sp])) dev None)
    as [[[evs dev'] l'] err] eqn:Hsend.
  rewrite (signTransaction_run exchange BIPPath_fromString path message bipPath sp dev
             Hparse Hser evs dev' l' err Hsend).
  cbn [fst snd]. destruct err as [msg|].
  - intros _.
    destruct (sendInOrder_rejected_shape exchange _ _ _ _ _ _ _ Hsend)
      as (responses & Hr & Hlen & Hs).
    unfold signFrames in Hlen. rewrite framesFrom_length in Hlen.
    exists msg, responses. auto.
  - destruct l' as [response|]; [destruct (strict_eq _ _)|]; discriminate.
Qed.

(** X15: [getAppConfiguration] sends one frame, with instruction 0x00,
    parameters 0, no data and no status list, and for a reply of at least
    four bytes returns the version made of the decimal values of the bytes at
    offsets 1, 2 and 3, separated by dots; the byte at offset 0 and the bytes
    after offset 3, status word included, play no part, so that no reply is
    taken for a refusal. *)
Theorem getAppConfiguration_version (b0 b1 b2 b3 : Z) (rest : Buffer)
    (dev dev' : TState) :
  exchange (mkSend 0xe0 0x00 0x00 0x00 None None) dev
  = (Response (b0 :: b1 :: b2 :: b3 :: rest), dev') ->
  run (getAppConfiguration exchange) tt dev
  = (Ok (mkVersion (NilZero.string_of_int (Z.to_int b1) ++ "."
                    ++ NilZero.string_of_int (Z.to_int b2) ++ "."
                    ++ NilZero.string_of_int (Z.to_int b3))%string),
     [Sent (mkSend 0xe0 0x00 0x00 0x00 None None);
      Received (Response (b0 :: b1 :: b2 :: b3 :: rest))]).
Proof.
  intros Hex. unfold run, getAppConfiguration, bind, transport_send.
  cbn [device trace]. unfold CLA, INS.GET_VERSION. rewrite Hex. reflexivity.
Qed.

End MoreOperations.

(** ** The further properties on the replaying transport *)

Lemma getAddress_short_reply_witness :
  fst shortAddressRun = Ok (AddressResult.mk "90" EmptyString NaN).
Proof.
  apply (getAddress_short_reply replay (fixedPath hederaPath) "44/3030/0/0/0" None
           hederaPath hederaSerialized [0x90] [Response [0x90]] []);
    [reflexivity | reflexivity | reflexivity | cbn; lia].
Defined.

Lemma signTransaction_invalid_path_witness :
  sign128Run = (Throw RangeError, []).
Proof.
  apply (signTransaction_invalid_path replay (fixedPath path128) "0/0/.../0"
           message600 path128 (replicate 4 (Response [0x90; 0x00])));
    [reflexivity|].
  left. unfold path128. rewrite length_replicate. lia.
Defined.

Lemma signTransaction_tags_witness :
  map p1 (sentFrames (snd sign600Run))
  = PAYLOAD_TYPE_INIT
    :: replicate (ceilDiv (length message600) CHUNK_SIZE - 1) PAYLOAD_TYPE_ADD
    ++ [PAYLOAD_TYPE_LAST].
Proof.
  apply (signTransaction_tags replay (fixedPath hederaPath) "44/3030/0/0/0" message600
           hederaPath hederaSerialized (replicate 4 (Response [0x90; 0x00])));
    [reflexivity | reflexivity | vm_compute; discriminate | vm_compute; reflexivity].
Defined.

Lemma signTransaction_chunk_contents_witness :
  map frameData (sentFrames (snd sign600Run))
  = hederaSerialized
    :: map (fun j => take 250 (drop (250 * j) message600))
         (seq 0 (ceilDiv (length message600) 250)).
Proof.
  apply (signTransaction_chunk_contents replay (fixedPath hederaPath) "44/3030/0/0/0"
           message600 hederaPath hederaSerialized (replicate 4 (Response [0x90; 0x00])));
    [reflexivity | reflexivity | vm_compute; reflexivity].
Defined.

Lemma signTransaction_signature_witness :
  fst signEmptyRun = Ok (SignResult.mk (Some mockKey) (Num (0x90 * 0x100 + 0x00))).
Proof.
  apply (signTransaction_signature replay (fixedPath hederaPath) "44/3030/0/0/0" []
           hederaPath hederaSerialized mockKey 0x90 0x00
           [Response (mockKey ++ [0x90; 0x00])]);
    [reflexivity | reflexivity | reflexivity | unfold SW_CANCEL; lia].
Defined.

Lemma signTransaction_rejection_witness :
  exists (msg : string) (responses : list Buffer),
    fst rejectedSignRun = Throw (TransportError msg)
    /\ receivedReplies (snd rejectedSignRun) = map Response responses ++ [Rejected msg]
    /\ (length responses < length (sliceLoop message600 0 [hederaSerialized]))%nat
    /\ sentFrames (snd rejectedSignRun)
       = take (S (length responses))
           (signFrames (sliceLoop message600 0 [hederaSerialized])).
Proof.
  apply (signTransaction_rejection replay (fixedPath hederaPath) "44/3030/0/0/0"
           message600 hederaPath hederaSerialized
           [Response [0x90; 0x00]; Response [0x90; 0x00]; Rejected "device disconnected"]);
    [reflexivity | reflexivity | vm_compute; reflexivity].
Defined.

Example rejectedSignRun_result :
  fst rejectedSignRun = Throw (TransportError "device disconnected")
  /\ map (fun frame => length (frameData frame)) (sentFrames (snd rejectedSignRun))
     = [21; 250; 250]%nat.
Proof. vm_compute. split; reflexivity. Qed.

Lemma getAppConfiguration_version_witness :
  versionRun
  = (Ok (mkVersion "1.2.3"),
     [Sent (mkSend 0xe0 0x00 0x00 0x00 None None);
      Received (Response [0x00; 1; 2; 3; 0x90; 0x00])]).
Proof.
  apply (getAppConfiguration_version replay 0x00 1 2 3 [0x90; 0x00]
           [Response [0x00; 1; 2; 3; 0x90; 0x00]] []).
  reflexivity.
Defined.
